(** * Dungeon Terrain: item distribution, pickup and equipment

    A shallow embedding of [items.js] (the item catalog) and of the item
    distribution and pickup script ([distributeItems], [updateMapWithItems],
    [getItemAtPosition], [pickupItem], [autoEquipItem], [renderInventory]).

    Conventions of the embedding.
    - JavaScript numbers that the program uses as counters, coordinates and
      indices are integers ([Z]); the results of [Math.random()] and the
      navigable-tile ratio are exact rationals ([Q]), so floating-point
      rounding is not modelled.
    - A JavaScript array used as the tile map is an object with integer keys
      and a [length]: a finite map from [Z] to tile codes together with its
      length.  Reading a missing key yields [undefined] ([None]).
    - The process-wide registry [mapItems] and the position in the stream of
      [Math.random()] results are threaded explicitly ([Globals]).  A call
      ends normally, with a [TypeError], or because the bound given for
      unrolling its [while] loop was too small ([completion]).
    - [console.log] / [console.error] / [console.trace] calls have no effect
      on the state and are omitted, except where evaluating their argument
      can raise a [TypeError]; those evaluations are kept. *)

From Stdlib Require Import ZArith QArith Qround Lia.
From stdpp Require Import base option list strings gmap pretty.

Local Open Scope string_scope.
Local Open Scope list_scope.
Local Open Scope Z_scope.

(** ** Item catalog (items.js) *)

(** The [slot] of an [Armor]: head, chest, legs, arms. *)
Inductive ArmorSlot := Head | Chest | Legs | Arms.

#[global] Instance ArmorSlot_eq_dec : EqDecision ArmorSlot.
Proof. solve_decision. Defined.

(** The fields of [Item] and of its subclasses that the distribution and
    pickup code reads.  [it_type] is the [type] string set by the subclass
    constructor (the empty string stands for a missing, falsy [type]);
    [it_slot] is [None] for anything but armor. *)
Record Item := mkItem {
  it_id : string;
  it_name : string;
  it_value : Z;
  it_rarity : string;
  it_quantity : Z;
  it_type : string;
  it_slot : option ArmorSlot;
  it_twoHanded : bool
}.

#[global] Instance Item_eq_dec : EqDecision Item.
Proof. solve_decision. Defined.

(** [new Weapon(id, name, _, value, _, rarity, ...)]: type "weapon",
    quantity 1, one-handed by default. *)
Definition Weapon (id name : string) (value : Z) (rarity : string) : Item :=
  mkItem id name value rarity 1 "weapon" None false.

Definition Armor (id name : string) (value : Z) (rarity : string)
    (slot : ArmorSlot) : Item :=
  mkItem id name value rarity 1 "armor" (Some slot) false.

Definition Ring (id name : string) (value : Z) (rarity : string) : Item :=
  mkItem id name value rarity 1 "ring" None false.

Definition Talisman (id name : string) (value : Z) (rarity : string) : Item :=
  mkItem id name value rarity 1 "talisman" None false.

(** The [WEAPONS] array literal, before the two-handed initialisation. *)
Definition WEAPONS_literal : list Item :=
  [ Weapon "sword_short" "Short Sword" 50 "common";
    Weapon "axe_hand" "Hand Axe" 45 "common";
    Weapon "mace_light" "Light Mace" 40 "common";
    Weapon "dagger_silver" "Silver Dagger" 65 "uncommon";
    Weapon "sword_great" "Greatsword" 120 "uncommon";
    Weapon "staff_flame" "Flame Staff" 150 "rare";
    Weapon "blade_frost" "Frostbite" 200 "rare";
    Weapon "sword_executioner" "Executioner's Blade" 250 "epic";
    Weapon "whip_poison" "Venom Whip" 180 "rare" ].

(** [WEAPONS.find((w) => w.id === id).twoHanded = true]: the first weapon
    with that id becomes two-handed. *)
Fixpoint markTwoHanded (id : string) (ws : list Item) : list Item :=
  match ws with
  | [] => []
  | w :: ws' =>
      if decide (it_id w = id)
      then mkItem (it_id w) (it_name w) (it_value w) (it_rarity w)
             (it_quantity w) (it_type w) (it_slot w) true :: ws'
      else w :: markTwoHanded id ws'
  end.

Definition WEAPONS : list Item :=
  markTwoHanded "staff_flame" (markTwoHanded "sword_great" WEAPONS_literal).

Definition ARMOR : list Item :=
  [ Armor "helm_iron" "Iron Helmet" 60 "common" Head;
    Armor "hood_leather" "Leather Hood" 40 "common" Head;
    Armor "crown_mage" "Mage's Crown" 120 "rare" Head;
    Armor "plate_steel" "Steel Plate Armor" 150 "uncommon" Chest;
    Armor "robe_enchanted" "Enchanted Robes" 140 "rare" Chest;
    Armor "tunic_hunter" "Hunter's Tunic" 80 "uncommon" Chest;
    Armor "greaves_iron" "Iron Greaves" 70 "common" Legs;
    Armor "pants_leather" "Leather Pants" 45 "common" Legs;
    Armor "gauntlets_iron" "Iron Gauntlets" 55 "common" Arms;
    Armor "bracers_leather" "Leather Bracers" 35 "common" Arms ].

Definition RINGS : list Item :=
  [ Ring "ring_strength" "Ring of Might" 100 "uncommon";
    Ring "ring_dexterity" "Ring of Precision" 110 "uncommon";
    Ring "ring_intelligence" "Ring of Wisdom" 120 "uncommon";
    Ring "ring_vitality" "Ring of Endurance" 100 "uncommon";
    Ring "ring_fire" "Ring of Fire Resistance" 150 "rare";
    Ring "ring_poison" "Ring of Antivenom" 140 "rare";
    Ring "ring_vampire" "Vampiric Ring" 200 "epic";
    Ring "ring_luck" "Fortune's Favor" 180 "rare" ].

Definition TALISMANS : list Item :=
  [ Talisman "talisman_fire" "Flame Emblem" 120 "uncommon";
    Talisman "talisman_frost" "Frost Pendant" 125 "uncommon";
    Talisman "talisman_bleeding" "Crimson Charm" 130 "uncommon";
    Talisman "talisman_protection" "Guardian's Seal" 180 "rare";
    Talisman "talisman_dragon" "Dragon's Heart" 250 "epic";
    Talisman "talisman_assassin" "Assassin's Mark" 240 "epic";
    Talisman "talisman_berserker" "Berserker's Rage" 220 "rare" ].

(** [String.prototype.toLowerCase] on the ASCII letters. *)
Definition lower_ascii (c : Ascii.ascii) : Ascii.ascii :=
  let n := Ascii.nat_of_ascii c in
  if ((65 <=? n) && (n <=? 90))%nat then Ascii.ascii_of_nat (n + 32) else c.

Fixpoint toLowerCase (s : string) : string :=
  match s with
  | EmptyString => EmptyString
  | String c s' => String (lower_ascii c) (toLowerCase s')
  end.

(** [getItemsByType(type)]; [None] is a null or undefined argument. *)
Definition getItemsByType (type : option string) : list Item :=
  match type with
  | None => []
  | Some t =>
      if decide (t = EmptyString) then []
      else
        let k := toLowerCase t in
        if decide (k = "weapon") then WEAPONS
        else if decide (k = "armor") then ARMOR
        else if decide (k = "ring") then RINGS
        else if decide (k = "talisman") then TALISMANS
        else []
  end.

(** [findItemById(id)]: the categories are scanned in the order weapons,
    armor, rings, talismans. *)
Definition findItemById (id : string) : option Item :=
  list_find (fun it => it_id it = id)
    (WEAPONS ++ ARMOR ++ RINGS ++ TALISMANS) ≫= (fun r => Some r.2).

(** ** JavaScript arrays used as tile maps *)

(** An array object: its integer-keyed properties and its [length].  The
    tile codes are strings ("." floor, "\" weapon, "&" armor, "$" ring or
    talisman, anything else an obstacle). *)
Record JsArray := mkArray {
  cells : gmap Z string;
  arr_length : nat
}.

(** [a[i]]: [None] is [undefined]. *)
Definition array_get (a : JsArray) (i : Z) : option string := cells a !! i.

(** [a[i] = v]: a store past the end extends [length]; a store at a
    negative key only adds the property. *)
Definition array_set (a : JsArray) (i : Z) (v : string) : JsArray :=
  mkArray (<[i := v]> (cells a)) (Nat.max (arr_length a) (Z.to_nat (i + 1))).

(** The array literal [[t0, t1, ...]]. *)
Definition array_of_list (l : list string) : JsArray :=
  mkArray (list_to_map (zip (seqZ 0 (Z.of_nat (length l))) l)) (length l).

(** [!map || typeof map !== "object" || !map.length]; [None] is an absent
    (null or undefined) map. *)
Definition invalid_map (map : option JsArray) : bool :=
  match map with
  | None => true
  | Some m => Nat.eqb (arr_length m) 0
  end.

(** [items[i]] on a catalog array, for an integer index. *)
Definition item_at (items : list Item) (i : Z) : option Item :=
  if i <? 0 then None else items !! Z.to_nat i.

(** ** Global state, abnormal completion *)

(** An entry of the registry [mapItems]: coordinate, item, display symbol. *)
Record PlacedItem := mkPlaced {
  mi_x : Z;
  mi_y : Z;
  mi_item : Item;
  mi_symbol : string
}.

#[global] Instance PlacedItem_eq_dec : EqDecision PlacedItem.
Proof. solve_decision. Defined.

(** The module-level [mapItems] and the number of [Math.random()] results
    consumed so far. *)
Record Globals := mkGlobals {
  mapItems : list PlacedItem;
  draws : nat
}.

Inductive JsError := TypeError.

(** How a call ends: it returns, it throws, or the bounded unrolling of a
    [while] loop was too short for it to finish. *)
Inductive completion (A : Type) :=
  | Normal (a : A)
  | Throw (e : JsError)
  | OutOfFuel.
Arguments Normal {A} a.
Arguments Throw {A} e.
Arguments OutOfFuel {A}.

Definition M (A : Type) : Type := Globals -> completion A * Globals.

#[global] Instance M_ret : MRet M := fun A a σ => (Normal a, σ).
#[global] Instance M_bind : MBind M := fun A B f c σ =>
  match c σ with
  | (Normal a, σ') => f a σ'
  | (Throw e, σ') => (Throw e, σ')
  | (OutOfFuel, σ') => (OutOfFuel, σ')
  end.

Definition throw {A} (e : JsError) : M A := fun σ => (Throw e, σ).
Definition out_of_fuel {A} : M A := fun σ => (OutOfFuel, σ).
Definition get_mapItems : M (list PlacedItem) := fun σ => (Normal (mapItems σ), σ).
Definition set_mapItems (l : list PlacedItem) : M unit :=
  fun σ => (Normal tt, mkGlobals l (draws σ)).

(** ** The player collaborator *)

(** The equipment slots: the hands are sequences, the armor slots hold one
    armor or nothing, rings and talismans are arrays of item-or-empty. *)
Record Equipment := mkEquipment {
  rightHand : list Item;
  leftHand : list Item;
  head : option Item;
  chest : option Item;
  legs : option Item;
  arms : option Item;
  rings : list (option Item);
  talismans : list (option Item)
}.

(** A player object.  [p_x] and [p_y] are [None] when the property is not
    a number; [inventory] is [None] when the property is absent. *)
Record Player := mkPlayer {
  p_x : option Z;
  p_y : option Z;
  inventory : option (list Item);
  equipment : Equipment
}.

(** Modelled from the spec: the player class and its [addToInventory]
    method are not part of the sources.  Per the player contract and the
    pickup lifecycle ("appends item to player inventory"), the method
    appends the item to the [inventory] sequence; on a player without an
    inventory there is no sequence to append to and the call raises. *)
Definition addToInventory (player : Player) (item : Item) : completion Player :=
  match inventory player with
  | Some inv =>
      Normal (mkPlayer (p_x player) (p_y player) (Some (inv ++ [item]))
                (equipment player))
  | None => Throw TypeError
  end.

Definition lift {A} (c : completion A) : M A := fun σ => (c, σ).

Section Host.

(** The host page's map dimensions. *)
Variables MAP_WIDTH MAP_HEIGHT : Z.

(** The successive results of [Math.random()]. *)
Variable rand : nat -> Q.

Definition random : M Q :=
  fun σ => (Normal (rand (draws σ)), mkGlobals (mapItems σ) (S (draws σ))).

(** [Math.floor(Math.random() * n)] *)
Definition random_below (n : Z) : M Z :=
  r ← random; mret (Qfloor (r * inject_Z n)).

(** The counting loop: [for (i = 0; i < map.length; i++) if (map[i] === ".")]. *)
Definition navigableTiles (map : JsArray) : Z :=
  Z.of_nat (length (filter (fun i => array_get map i = Some ".")
                      (seqZ 0 (Z.of_nat (arr_length map))))).

Definition minItems : Z := 10.
Definition maxItems : Z := 40.

(** [minItems + Math.floor(navigableTiles / (MAP_WIDTH * MAP_HEIGHT) * (maxItems - minItems))].
    For a zero area JavaScript divides by zero (NaN or Infinity); the
    properties that depend on the count assume positive dimensions. *)
Definition baseItemCount (map : JsArray) : Z :=
  minItems +
  Qfloor ((inject_Z (navigableTiles map) / inject_Z (MAP_WIDTH * MAP_HEIGHT))
          * inject_Z (maxItems - minItems)).

(** [Math.min(maxItems, baseItemCount + Math.floor(Math.random() * 10) - 5)] *)
Definition itemCount_of (map : JsArray) (offset : Z) : Z :=
  Z.min maxItems (baseItemCount map + offset - 5).

(** The type roll: below 0.4 a weapon, below 0.7 armor, otherwise a second
    draw decides between ring and talisman. *)
Definition roll_item_type : M (string * string) :=
  itemTypeRoll ← random;
  if Qlt_le_dec itemTypeRoll (4 # 10) then mret ("weapon", "\")
  else if Qlt_le_dec itemTypeRoll (7 # 10) then mret ("armor", "&")
  else
    r ← random;
    mret (if Qlt_le_dec r (1 # 2) then "ring" else "talisman", "$").

(** One iteration of the placement loop after [attempts++]; returns the new
    value of [placedItems].  [items[i]] is [undefined] only for an index
    outside the catalog array, which a [Math.random()] result in [0, 1)
    never gives.  For armor the next statement reads [selectedItem.slot] and
    raises; for the other types the entry would be registered without an
    item, and the first log that reads its [item.name] raises.  The model
    raises at once in both cases. *)
Definition place_attempt (map : JsArray) (placedItems : Z) : M Z :=
  x ← random_below MAP_WIDTH;
  y ← random_below MAP_HEIGHT;
  let index := y * MAP_WIDTH + x in
  if decide (array_get map index = Some ".") then
    '(itemType, itemSymbol) ← roll_item_type;
    let items := getItemsByType (Some itemType) in
    if 0 <? Z.of_nat (length items) then
      i ← random_below (Z.of_nat (length items));
      match item_at items i with
      | Some selectedItem =>
          l ← get_mapItems;
          _ ← set_mapItems (l ++ [mkPlaced x y selectedItem itemSymbol]);
          mret (placedItems + 1)
      | None => throw TypeError
      end
    else mret placedItems
  else mret placedItems.

(** [while (placedItems < itemCount && attempts < maxAttempts)], unrolled at
    most [fuel] times; returns the final [placedItems] and [attempts]. *)
Fixpoint distribute_loop (fuel : nat) (map : JsArray)
    (itemCount maxAttempts placedItems attempts : Z) : M (Z * Z) :=
  if (placedItems <? itemCount) && (attempts <? maxAttempts) then
    match fuel with
    | O => out_of_fuel
    | S fuel' =>
        placedItems' ← place_attempt map placedItems;
        distribute_loop fuel' map itemCount maxAttempts placedItems' (attempts + 1)
    end
  else mret (placedItems, attempts).

(** What [distributeItems] logs about a run: the target count, the number
    of items placed and the number of attempts made. *)
Record DistributionLog := mkLog {
  log_itemCount : Z;
  log_placedItems : Z;
  log_attempts : Z
}.

(** The body of [distributeItems] on a valid map. *)
Definition distribute_run (fuel : nat) (map : JsArray) : M DistributionLog :=
  offset ← random_below 10;
  let itemCount := itemCount_of map offset in
  let maxAttempts := itemCount * 10 in
  '(placedItems, attempts) ← distribute_loop fuel map itemCount maxAttempts 0 0;
  mret (mkLog itemCount placedItems attempts).

(** [distributeItems(map)]: the registry is cleared first, then the map is
    validated.  The result is the registry array itself. *)
Definition distributeItems (fuel : nat) (map : option JsArray)
    : M (list PlacedItem) :=
  _ ← set_mapItems [];
  match map with
  | Some m =>
      if invalid_map map then mret []
      else _ ← distribute_run fuel m; get_mapItems
  | None => mret []
  end.

(** [updateMapWithItems(map)]: every registry entry whose tile is still
    the floor code gets its symbol written on the map; the others are
    skipped.  Returns the map object after the call. *)
Definition place_symbol (map : JsArray) (mapItem : PlacedItem) : JsArray :=
  let index := mi_y mapItem * MAP_WIDTH + mi_x mapItem in
  if decide (array_get map index = Some ".")
  then array_set map index (mi_symbol mapItem)
  else map.

Definition updateMapWithItems (map : option JsArray) : M (option JsArray) :=
  match map with
  | None => mret None
  | Some m => l ← get_mapItems; mret (Some (foldl place_symbol m l))
  end.

(** [getItemAtPosition(x, y)]: the first registry entry at exactly (x, y)
    is spliced out and its [item] returned. *)
Definition getItemAtPosition (x y : Z) : M (option Item) :=
  l ← get_mapItems;
  match list_find (fun item => mi_x item = x ∧ mi_y item = y) l with
  | Some (itemIndex, item) =>
      _ ← set_mapItems (delete itemIndex l);
      mret (Some (mi_item item))
  | None => mret None
  end.

(** The fallback of [pickupItem]: an item symbol on the map without a
    registry entry yields a random catalog item of the matching type. *)
Definition fallback_item (cellChar : option string) : M (option Item) :=
  if decide (cellChar = Some "\" ∨ cellChar = Some "&" ∨ cellChar = Some "$")
  then
    itemType ←
      (if decide (cellChar = Some "\") then mret "weapon"
       else if decide (cellChar = Some "&") then mret "armor"
       else r ← random;
            mret (if Qlt_le_dec r (1 # 2) then "ring" else "talisman"));
    let items := getItemsByType (Some itemType) in
    if 0 <? Z.of_nat (length items) then
      i ← random_below (Z.of_nat (length items));
      match item_at items i with
      | Some item => mret (Some item)
      | None => throw TypeError      (* [item.name] in the log *)
      end
    else mret None
  else mret None.

(** [pickupItem(player, map)].  Returns the boolean result together with
    the player and map objects as the call leaves them. *)
Definition pickupItem (player : option Player) (map : option JsArray)
    : M (bool * option Player * option JsArray) :=
  match player with
  | None => throw TypeError          (* [player.x] in the first log *)
  | Some pl =>
      match map with
      | None => mret (false, player, map)
      | Some m =>
          if invalid_map map then mret (false, player, map)
          else
            match p_x pl, p_y pl with
            | Some x, Some y =>
                found ← getItemAtPosition x y;
                item ←
                  match found with
                  | Some item => mret (Some item)
                  | None => fallback_item (array_get m (y * MAP_WIDTH + x))
                  end;
                match item with
                | Some item =>
                    pl' ← lift (addToInventory pl item);
                    mret (true, Some pl', Some (array_set m (y * MAP_WIDTH + x) "."))
                | None => mret (false, player, map)
                end
            | _, _ => mret (false, player, map)
            end
      end
  end.

(** The clearing loop of [resetAndDistributeItems]:
    [for (i = 0; i < map.length; i++) if (map[i] is an item symbol) map[i] = "."].
    The stores are below [map.length], so the bound does not move. *)
Definition is_item_symbol (c : option string) : Prop :=
  c = Some "\" ∨ c = Some "&" ∨ c = Some "$".

Definition clear_symbol (map : JsArray) (i : Z) : JsArray :=
  if decide (is_item_symbol (array_get map i)) then array_set map i "." else map.

Definition clear_item_symbols (map : JsArray) : JsArray :=
  foldl clear_symbol map (seqZ 0 (Z.of_nat (arr_length map))).

(** [resetAndDistributeItems(map, force)].  Returns the map object as the
    call leaves it. *)
Definition resetAndDistributeItems (fuel : nat) (map : option JsArray)
    (force : bool) : M (option JsArray) :=
  match map with
  | None => mret None
  | Some m =>
      if invalid_map map then mret map
      else
        l ← get_mapItems;
        if Nat.eqb (length l) 0 || force then
          let cleared := clear_item_symbols m in
          _ ← set_mapItems [];
          _ ← distributeItems fuel (Some cleared);
          updateMapWithItems (Some cleared)
        else mret map
  end.

End Host.

(** ** Equipping *)

Definition set_equipment (player : Player) (e : Equipment) : Player :=
  mkPlayer (p_x player) (p_y player) (inventory player) e.

(** [player.equipment[slot]] for the four armor slots. *)
Definition armor_in (e : Equipment) (s : ArmorSlot) : option Item :=
  match s with
  | Head => head e | Chest => chest e | Legs => legs e | Arms => arms e
  end.

Definition set_armor (e : Equipment) (s : ArmorSlot) (item : Item) : Equipment :=
  match s with
  | Head => mkEquipment (rightHand e) (leftHand e) (Some item) (chest e) (legs e) (arms e) (rings e) (talismans e)
  | Chest => mkEquipment (rightHand e) (leftHand e) (head e) (Some item) (legs e) (arms e) (rings e) (talismans e)
  | Legs => mkEquipment (rightHand e) (leftHand e) (head e) (chest e) (Some item) (arms e) (rings e) (talismans e)
  | Arms => mkEquipment (rightHand e) (leftHand e) (head e) (chest e) (legs e) (Some item) (rings e) (talismans e)
  end.

(** The slot loops of the ring and talisman cases: the first falsy entry
    receives the item; [None] when the loop ends without finding one. *)
Fixpoint fill_first_empty (item : Item) (slots : list (option Item))
    : option (list (option Item)) :=
  match slots with
  | [] => None
  | None :: rest => Some (Some item :: rest)
  | Some other :: rest => (fun r => Some other :: r) <$> fill_first_empty item rest
  end.

(** [autoEquipItem(player, item)]: the result and the player afterwards. *)
Definition autoEquipItem (player : Player) (item : option Item) : bool * Player :=
  match item with
  | None => (false, player)
  | Some it =>
      let e := equipment player in
      if decide (it_type it = "weapon") then
        if Nat.eqb (length (rightHand e)) 0 then
          (true, set_equipment player
             (mkEquipment (rightHand e ++ [it]) (leftHand e) (head e) (chest e)
                (legs e) (arms e) (rings e) (talismans e)))
        else if Nat.eqb (length (leftHand e)) 0 then
          (true, set_equipment player
             (mkEquipment (rightHand e) (leftHand e ++ [it]) (head e) (chest e)
                (legs e) (arms e) (rings e) (talismans e)))
        else (false, player)
      else if decide (it_type it = "armor") then
        match it_slot it with
        | Some s =>
            match armor_in e s with
            | None => (true, set_equipment player (set_armor e s it))
            | Some _ => (false, player)
            end
        | None => (false, player)
        end
      else if decide (it_type it = "ring") then
        match fill_first_empty it (rings e) with
        | Some rings' =>
            (true, set_equipment player
               (mkEquipment (rightHand e) (leftHand e) (head e) (chest e)
                  (legs e) (arms e) rings' (talismans e)))
        | None => (false, player)
        end
      else if decide (it_type it = "talisman") then
        match fill_first_empty it (talismans e) with
        | Some talismans' =>
            (true, set_equipment player
               (mkEquipment (rightHand e) (leftHand e) (head e) (chest e)
                  (legs e) (arms e) (rings e) talismans'))
        | None => (false, player)
        end
      else (false, player)
  end.

(** ** Inventory rendering *)

#[global] Instance completion_ret : MRet completion := @Normal.
#[global] Instance completion_bind : MBind completion := fun A B f c =>
  match c with
  | Normal a => f a
  | Throw e => Throw e
  | OutOfFuel => OutOfFuel
  end.

(** [player.inventory] and [inventory.length]: reading a property of null
    or undefined raises a [TypeError]. *)
Definition get_inventory (player : option Player)
    : completion (option (list Item)) :=
  match player with
  | None => Throw TypeError
  | Some p => Normal (inventory p)
  end.

Definition get_length (inv : option (list Item)) : completion Z :=
  match inv with
  | None => Throw TypeError
  | Some l => Normal (Z.of_nat (length l))
  end.

(** [inventoryByType]: an object keyed by the type string, its keys in
    insertion order; items without a type are skipped. *)
Fixpoint group_push (item : Item) (groups : list (string * list Item))
    : list (string * list Item) :=
  match groups with
  | [] => [(it_type item, [item])]
  | (t, l) :: rest =>
      if decide (t = it_type item) then (t, l ++ [item]) :: rest
      else (t, l) :: group_push item rest
  end.

Definition inventoryByType (inv : list Item) : list (string * list Item) :=
  foldl (fun groups item =>
           if decide (it_type item = EmptyString) then groups
           else group_push item groups) [] inv.

(** [player.inventory.findIndex((i) => i.name === item.name && i.type === item.type)] *)
Definition findIndex_same (inv : list Item) (item : Item) : Z :=
  match list_find (fun i => it_name i = it_name item ∧ it_type i = it_type item) inv with
  | Some (k, _) => Z.of_nat k
  | None => -1
  end.

Definition dq : string := String (Ascii.ascii_of_nat 34) EmptyString.
Definition nl : string := String (Ascii.ascii_of_nat 10) EmptyString.
Definition indent : string := "                   ".

(** The clickable span of one inventory item. *)
Definition render_span (inv : list Item) (item : Item) : string :=
  "<span class=" +:+ dq +:+ "inventory-item" +:+ dq +:+ " " +:+ nl +:+
  indent +:+ "data-item-index=" +:+ dq +:+ pretty (findIndex_same inv item)
    +:+ dq +:+ " " +:+ nl +:+
  indent +:+ "data-item-type=" +:+ dq +:+ it_type item +:+ dq +:+ nl +:+
  indent +:+ "data-item-name=" +:+ dq +:+ it_name item +:+ dq +:+ nl +:+
  indent +:+ "style=" +:+ dq
    +:+ "text-decoration: underline; cursor: pointer; color: var(--item-color-"
    +:+ it_type item +:+ ")" +:+ dq +:+ ">" +:+ it_name item +:+
  (if 1 <? it_quantity item then " (" +:+ pretty (it_quantity item) +:+ ")"
   else EmptyString) +:+
  "</span>".

(** [renderInventory(player)].  The first statement logs
    [player.inventory.length]; the sanity check comes after it. *)
Definition renderInventory (player : option Player) : completion string :=
  inv ← get_inventory player;
  _ ← get_length inv;
  match player, inv with
  | Some p, Some entries =>
      if Nat.eqb (length entries) 0 then Normal "| INVENTORY: Empty"
      else
        let items :=
          mbind (M := list) (fun g => render_span entries <$> g.2) (inventoryByType entries) in
        Normal ("| INVENTORY: " +:+ String.concat ", " items)
  | _, _ => Normal "| INVENTORY: Error"
  end.


(** * Specification vocabulary and example data *)

(** The state after [k] further calls of [Math.random()]. *)
Definition after_draws (k : nat) (σ : Globals) : Globals :=
  mkGlobals (mapItems σ) (k + draws σ).

(** A registry entry sits on a floor tile of [m]. *)
Definition on_floor (MAP_WIDTH : Z) (m : JsArray) (p : PlacedItem) : Prop :=
  array_get m (mi_y p * MAP_WIDTH + mi_x p) = Some ".".

Definition coordinate (p : PlacedItem) : Z * Z := (mi_x p, mi_y p).

(** The target item count in the words of the specification:
    clamp(10 + floor(navigable / totalCells * 30) + u, 10, 40), with [u] the
    uniform offset in -5..4. *)
Definition clamp (v lo hi : Z) : Z := Z.max lo (Z.min hi v).

Definition spec_itemCount (navigable totalCells u : Z) : Z :=
  clamp (10 + Qfloor (inject_Z navigable / inject_Z totalCells * inject_Z 30) + u)
        10 40.

(** Every slot that holds something in [e] holds the same thing in [e']. *)
Definition occupied_slots_kept (e e' : Equipment) : Prop :=
  (rightHand e ≠ [] → rightHand e' = rightHand e) ∧
  (leftHand e ≠ [] → leftHand e' = leftHand e) ∧
  (∀ s a, armor_in e s = Some a → armor_in e' s = Some a) ∧
  (∀ i r, rings e !! i = Some (Some r) → rings e' !! i = Some (Some r)) ∧
  (∀ i t, talismans e !! i = Some (Some t) → talismans e' !! i = Some (Some t)).

(** The target slot of [it] in [e] is taken: both hands for a weapon, the
    declared slot for armor, every ring (talisman) entry for a ring
    (talisman). *)
Definition target_occupied (e : Equipment) (it : Item) : Prop :=
  (it_type it = "weapon" ∧ rightHand e ≠ [] ∧ leftHand e ≠ []) ∨
  (it_type it = "armor" ∧ ∃ s, it_slot it = Some s ∧ is_Some (armor_in e s)) ∨
  (it_type it = "ring" ∧ Forall is_Some (rings e)) ∨
  (it_type it = "talisman" ∧ Forall is_Some (talismans e)).

(** Some hand slot of [e] holds a two-handed weapon. *)
Definition holds_two_handed (e : Equipment) : Prop :=
  ∃ w, it_type w = "weapon" ∧ it_twoHanded w = true ∧
       (w ∈ rightHand e ∨ w ∈ leftHand e).

(** Catalog entries used in the examples. *)
Definition ShortSword : Item := Weapon "sword_short" "Short Sword" 50 "common".
Definition HandAxe : Item := Weapon "axe_hand" "Hand Axe" 45 "common".
Definition IronHelmet : Item := Armor "helm_iron" "Iron Helmet" 60 "common" Head.
Definition Greatsword : Item :=
  mkItem "sword_great" "Greatsword" 120 "uncommon" 1 "weapon" None true.

Definition no_equipment : Equipment :=
  mkEquipment [] [] None None None None [None; None] [None; None].

(** A player at the origin with an empty inventory and nothing equipped. *)
Definition explorer : Player := mkPlayer (Some 0) (Some 0) (Some []) no_equipment.

(** A player at (2, 3) with an empty inventory. *)
Definition wanderer : Player := mkPlayer (Some 2) (Some 3) (Some []) no_equipment.

(** A player whose right hand holds the two-handed Greatsword. *)
Definition greatsword_wielder : Player :=
  mkPlayer (Some 0) (Some 0) (Some [Greatsword])
    (mkEquipment [Greatsword] [] None None None None [None; None] [None; None]).

Definition short_sword_at_origin : PlacedItem := mkPlaced 0 0 ShortSword "\".

Definition fresh_globals : Globals := mkGlobals [] 0.

(** The 4-by-1 map of the specification's scenario. *)
Definition four_tile_map : JsArray := array_of_list ["."; "."; "#"; "."].

(** A 1-by-1 map that is a single wall. *)
Definition wall_map : JsArray := array_of_list ["#"].

(** A 4-by-4 map, all floor except the weapon symbol at (2, 3). *)
Definition drifted_map : JsArray :=
  array_of_list [ "."; "."; "."; ".";  "."; "."; "."; ".";
                  "."; "."; "."; ".";  "."; "."; "\"; "." ].

(** Streams of [Math.random()] results: a constant one, and one that
    replays a list and then yields 0. *)
Definition constant_draws (q : Q) : nat → Q := fun _ => q.
Definition replay (l : list Q) : nat → Q := fun n => default 0%Q (l !! n).

(** The draws of a run that stacks a sword and a helmet on tile (0, 0):
    offset, then (x, y, type roll, selection) twice. *)
Definition stacking_draws : nat → Q :=
  replay [0; 0; 0; 0; 0; 0; 0; 1 # 2; 0]%Q.

(** The grid index of a registry entry. *)
Definition entry_index (MAP_WIDTH : Z) (p : PlacedItem) : Z :=
  mi_y p * MAP_WIDTH + mi_x p.

(** The whole catalog, in the order in which [findItemById] scans it. *)
Definition ALL_ITEMS : list Item := WEAPONS ++ ARMOR ++ RINGS ++ TALISMANS.

(** The four recognised type strings. *)
Definition recognised_type (k : string) : Prop :=
  k = "weapon" ∨ k = "armor" ∨ k = "ring" ∨ k = "talisman".

(** The display symbol that goes with an item type. *)
Definition symbol_matches_type (symbol type : string) : Prop :=
  (symbol = "\" ∧ type = "weapon") ∨
  (symbol = "&" ∧ type = "armor") ∨
  (symbol = "$" ∧ (type = "ring" ∨ type = "talisman")).

(** A registry entry as [distributeItems] makes them: inside the grid, its
    item taken from the catalog of its type, its symbol that of the type. *)
Definition entry_well_formed (MAP_WIDTH MAP_HEIGHT : Z) (p : PlacedItem) : Prop :=
  0 ≤ mi_x p < MAP_WIDTH ∧ 0 ≤ mi_y p < MAP_HEIGHT ∧
  mi_item p ∈ getItemsByType (Some (it_type (mi_item p))) ∧
  symbol_matches_type (mi_symbol p) (it_type (mi_item p)).

(** Two items agree on everything but the two-handed flag. *)
Definition same_but_flag (w w' : Item) : Prop :=
  it_id w' = it_id w ∧ it_name w' = it_name w ∧ it_value w' = it_value w ∧
  it_rarity w' = it_rarity w ∧ it_quantity w' = it_quantity w ∧
  it_type w' = it_type w ∧ it_slot w' = it_slot w.



(** Every cell of the MAP_WIDTH by MAP_HEIGHT grid holds the floor code. *)
Definition all_floor (MAP_WIDTH MAP_HEIGHT : Z) (m : JsArray) : Prop :=
  ∀ x y, 0 ≤ x < MAP_WIDTH → 0 ≤ y < MAP_HEIGHT →
         array_get m (y * MAP_WIDTH + x) = Some ".".


(** * Properties *)

(** ** Arithmetic and array facts *)

Lemma Qfloor_scaled_range (r : Q) (n : Z) :
  (0 <= r)%Q → (r < 1)%Q → 0 < n → 0 <= Qfloor (r * inject_Z n) < n.
Proof.
  intros H0 H1 Hn.
  assert (Hn' : (0 < inject_Z n)%Q)
    by (change 0%Q with (inject_Z 0); rewrite <- Zlt_Qlt; lia).
  split.
  - change 0 with (Qfloor 0). apply Qfloor_resp_le.
    apply Qmult_le_0_compat; [done|]. by apply Qlt_le_weak.
  - rewrite Zlt_Qlt. eapply Qle_lt_trans; [apply Qfloor_le|].
    eapply Qlt_le_trans; [apply Qmult_lt_compat_r; [exact Hn'|exact H1]|].
    rewrite Qmult_1_l. apply Qle_refl.
Qed.

Lemma item_at_in_range (items : list Item) (i : Z) :
  0 <= i < Z.of_nat (length items) → ∃ it, item_at items i = Some it ∧ it ∈ items.
Proof.
  intros [Hlo Hhi]. unfold item_at.
  destruct (Z.ltb_spec i 0) as [|_]; [lia|].
  destruct (lookup_lt_is_Some_2 items (Z.to_nat i)) as [it Hit]; [lia|].
  exists it. split; [done|]. by eapply list_elem_of_lookup_2.
Qed.

Lemma array_get_set_eq (a : JsArray) (i : Z) (v : string) :
  array_get (array_set a i v) i = Some v.
Proof. apply lookup_insert_eq. Qed.

Lemma array_get_set_ne (a : JsArray) (i j : Z) (v : string) :
  i ≠ j → array_get (array_set a i v) j = array_get a j.
Proof. intros. by apply lookup_insert_ne. Qed.

Lemma array_set_valid (a : JsArray) (i : Z) (v : string) :
  invalid_map (Some a) = false → invalid_map (Some (array_set a i v)) = false.
Proof. simpl. rewrite !Nat.eqb_neq. lia. Qed.

Lemma constant_draws_unit (q : Q) :
  (0 <= q)%Q → (q < 1)%Q →
  ∀ n, (0 <= constant_draws q n)%Q ∧ (constant_draws q n < 1)%Q.
Proof. intros H0 H1 n. by split. Qed.

Lemma replay_unit (l : list Q) :
  Forall (fun q => (0 <= q)%Q ∧ (q < 1)%Q) l →
  ∀ n, (0 <= replay l n)%Q ∧ (replay l n < 1)%Q.
Proof.
  intros Hl n. unfold replay. destruct (l !! n) as [q|] eqn:Hq; simpl; [|done].
  by apply (Forall_lookup_1 _ _ _ _ Hl Hq).
Qed.

Lemma stacking_draws_unit :
  ∀ n, (0 <= stacking_draws n)%Q ∧ (stacking_draws n < 1)%Q.
Proof. apply replay_unit. repeat (constructor; [by split|]). constructor. Qed.

(** One step of the state monad at a time. *)
Ltac mrun :=
  repeat (unfold mbind, M_bind, mret, M_ret, random_below, random, get_mapItems,
            set_mapItems, throw, out_of_fuel, lift;
          cbv beta iota; cbn [mapItems draws]).

(** ** Equipping never displaces an item *)

Lemma occupied_slots_kept_refl e : occupied_slots_kept e e.
Proof. repeat split; auto. Qed.

Lemma fill_first_empty_keeps item slots slots' :
  fill_first_empty item slots = Some slots' →
  ∀ i r, slots !! i = Some (Some r) → slots' !! i = Some (Some r).
Proof.
  revert slots'. induction slots as [|[other|] rest IH]; intros slots' Hfill; simpl in Hfill.
  - discriminate.
  - destruct (fill_first_empty item rest) as [r'|] eqn:Hrest; simpl in Hfill; [|discriminate].
    injection Hfill as <-. intros [|i] r; simpl; [done|]. by apply IH.
  - injection Hfill as <-. intros [|i] r; simpl; [discriminate|done].
Qed.

Lemma fill_first_empty_full item slots :
  Forall is_Some slots → fill_first_empty item slots = None.
Proof.
  induction 1 as [|o rest [other ->] _ IH]; simpl; [done|]. by rewrite IH.
Qed.

Lemma length_zero_eqb {A} (l : list A) : Nat.eqb (length l) 0 = false ↔ l ≠ [].
Proof. destruct l; simpl; split; congruence. Qed.

Lemma autoEquipItem_keeps_occupied player item :
  occupied_slots_kept (equipment player) (equipment (autoEquipItem player item).2).
Proof.
  destruct item as [it|]; simpl; [|apply occupied_slots_kept_refl].
  repeat case_decide.
  - destruct (rightHand (equipment player)) as [|w ws] eqn:Hr; simpl.
    { repeat split; simpl; auto. by rewrite Hr. }
    destruct (leftHand (equipment player)) as [|v vs] eqn:Hl; simpl.
    { repeat split; simpl; auto. by rewrite Hl. }
    apply occupied_slots_kept_refl.
  - destruct (it_slot it) as [s|]; [|apply occupied_slots_kept_refl].
    destruct (armor_in (equipment player) s) eqn:Hs; [apply occupied_slots_kept_refl|].
    repeat split; destruct s; simpl in *; auto;
      intros [] a Ha; simpl in *; congruence.
  - destruct (fill_first_empty it (rings (equipment player))) eqn:Hf;
      [|apply occupied_slots_kept_refl].
    repeat split; simpl; auto. by apply fill_first_empty_keeps with it.
  - destruct (fill_first_empty it (talismans (equipment player))) eqn:Hf;
      [|apply occupied_slots_kept_refl].
    repeat split; simpl; auto. by apply fill_first_empty_keeps with it.
  - apply occupied_slots_kept_refl.
Qed.

Lemma autoEquipItem_occupied_fails player it :
  target_occupied (equipment player) it →
  autoEquipItem player (Some it) = (false, player).
Proof.
  unfold autoEquipItem.
  intros [(Ht & Hr & Hl)|[(Ht & s & Hs & [a Ha])|[(Ht & Hfull)|(Ht & Hfull)]]];
    rewrite Ht; simpl.
  - apply length_zero_eqb in Hr, Hl. by rewrite Hr, Hl.
  - by rewrite Hs, Ha.
  - by rewrite fill_first_empty_full.
  - by rewrite fill_first_empty_full.
Qed.

Lemma autoEquipItem_false_unchanged player item :
  (autoEquipItem player item).1 = false → (autoEquipItem player item).2 = player.
Proof.
  destruct item as [it|]; simpl; [|done].
  repeat case_decide; repeat case_match; simpl; congruence.
Qed.

(** C4: [autoEquipItem] never overwrites an occupied equipment slot.  For
    every player and item, each slot that was occupied before the call holds
    the same content afterwards; a weapon offered while both hands are
    non-empty is refused with the player unchanged; more generally an
    occupied target slot always makes the call return false with the player
    unchanged (no swap), and a refused call never changes the player. *)
Theorem autoEquipItem_never_overwrites :
  ∀ (player : Player) (item : option Item),
    occupied_slots_kept (equipment player) (equipment (autoEquipItem player item).2) ∧
    (∀ w, item = Some w → it_type w = "weapon" →
          rightHand (equipment player) ≠ [] → leftHand (equipment player) ≠ [] →
          autoEquipItem player item = (false, player)) ∧
    (∀ it, item = Some it → target_occupied (equipment player) it →
           autoEquipItem player item = (false, player)) ∧
    ((autoEquipItem player item).1 = false → (autoEquipItem player item).2 = player).
Proof.
  intros player item. split; [apply autoEquipItem_keeps_occupied|].
  split; [|split].
  - intros w -> Ht Hr Hl. apply autoEquipItem_occupied_fails. left. auto.
  - intros it ->. apply autoEquipItem_occupied_fails.
  - apply autoEquipItem_false_unchanged.
Qed.

(** ** Two-handed weapons and the hands *)

Lemma Greatsword_in_catalog : WEAPONS !! 4%nat = Some Greatsword.
Proof. reflexivity. Qed.

(** C10, counterexample: a player holding the two-handed Greatsword in the
    right hand is offered the Short Sword; the call returns true and the
    Short Sword lands in the left hand, so it is not the case that every
    further weapon is refused. *)
Lemma two_handed_weapon_shares_hands :
  ¬ (∀ (player : Player) (w : Item),
       holds_two_handed (equipment player) → it_type w = "weapon" →
       (autoEquipItem player (Some w)).1 = false).
Proof.
  intros Hclaim.
  specialize (Hclaim greatsword_wielder ShortSword).
  simpl in Hclaim. discriminate Hclaim; [|done].
  exists Greatsword. repeat split; [left; apply list_elem_of_here].
Qed.

(** C10, as amended: the capacity of the hands is governed by occupancy
    alone.  A weapon is refused exactly when both hand slots are non-empty;
    otherwise it goes to the right hand if that is empty and else to the
    left hand, whatever the two-handed flags of the weapons involved. *)
Theorem weapon_refused_iff_hands_occupied (player : Player) (w : Item) :
  it_type w = "weapon" →
  let e := equipment player in
  ((autoEquipItem player (Some w)).1 = false ↔ rightHand e ≠ [] ∧ leftHand e ≠ []) ∧
  (rightHand e = [] →
     autoEquipItem player (Some w) =
       (true, set_equipment player
                (mkEquipment [w] (leftHand e) (head e) (chest e) (legs e)
                   (arms e) (rings e) (talismans e)))) ∧
  (rightHand e ≠ [] → leftHand e = [] →
     autoEquipItem player (Some w) =
       (true, set_equipment player
                (mkEquipment (rightHand e) [w] (head e) (chest e) (legs e)
                   (arms e) (rings e) (talismans e)))).
Proof.
  intros Ht e. unfold autoEquipItem. rewrite Ht. simpl. fold e.
  destruct (rightHand e) as [|r rs] eqn:Hr; simpl.
  { split; [split; [discriminate|intros [? _]; done]|]. split; [done|]. done. }
  destruct (leftHand e) as [|l ls] eqn:Hl; simpl.
  { split; [split; [discriminate|intros [_ ?]; done]|]. split; [done|]. done. }
  split; [done|]. split; [done|]. done.
Qed.

Lemma weapon_refused_iff_hands_occupied_witness :
  it_type HandAxe = "weapon" ∧
  ((autoEquipItem greatsword_wielder (Some HandAxe)).1 = false
   ↔ rightHand (equipment greatsword_wielder) ≠ []
     ∧ leftHand (equipment greatsword_wielder) ≠ []).
Proof.
  split; [reflexivity|].
  apply (weapon_refused_iff_hands_occupied greatsword_wielder HandAxe).
  reflexivity.
Defined.

(** ** Malformed arguments *)

Lemma renderInventory_empty x y e :
  renderInventory (Some (mkPlayer x y (Some []) e)) = Normal "| INVENTORY: Empty".
Proof. reflexivity. Qed.

(** C7, at the failing inputs: for an absent player and for a player
    without an inventory, [renderInventory] does not return the error
    string; the first statement reads [player.inventory.length] and raises
    a [TypeError] before the sanity check is reached. *)
Theorem renderInventory_malformed_player_throws :
  renderInventory None = Throw TypeError ∧
  (∀ x y e, renderInventory (Some (mkPlayer x y None e)) = Throw TypeError) ∧
  renderInventory None ≠ Normal "| INVENTORY: Error".
Proof. repeat split; discriminate. Qed.

(** C6, at the failing input: with an absent player, [pickupItem] does not
    return false; the first statement reads [player.x] and raises a
    [TypeError], whatever the map.  Nothing is mutated. *)
Theorem pickupItem_absent_player_throws :
  ∀ (MAP_WIDTH : Z) (rand : nat → Q) (map : option JsArray) (σ : Globals),
    pickupItem MAP_WIDTH rand None map σ = (Throw TypeError, σ).
Proof. reflexivity. Qed.

(** What the validation does deliver: for a player object, an
    invalid map or a non-numeric coordinate gives false and no mutation. *)
Lemma pickupItem_invalid_input_returns_false MAP_WIDTH rand pl map σ :
  invalid_map map = true ∨ p_x pl = None ∨ p_y pl = None →
  pickupItem MAP_WIDTH rand (Some pl) map σ = (Normal (false, Some pl, map), σ).
Proof.
  intros H. unfold pickupItem. destruct map as [m|]; [|done].
  destruct (invalid_map (Some m)) eqn:Hm; [done|].
  destruct H as [H|[H|H]]; [done| |]; rewrite H; [done|].
  by destruct (p_x pl).
Qed.

(** ** [distributeItems] on an invalid map *)

(** C8, counterexample: with one entry in the registry, a call with an
    absent map returns the empty sequence but leaves the registry empty,
    not as it was. *)
Lemma distributeItems_invalid_map_clears_registry :
  let σ := mkGlobals [short_sword_at_origin] 0 in
  let r := distributeItems 4 1 (constant_draws 0) 400 None σ in
  r.1 = Normal [] ∧ mapItems r.2 = [] ∧ mapItems r.2 ≠ mapItems σ.
Proof. repeat split; discriminate. Qed.

Lemma distributeItems_rejects_invalid_map (MAP_WIDTH MAP_HEIGHT : Z)
    (rand : nat → Q) (fuel : nat) (map : option JsArray) (σ : Globals) :
  invalid_map map = true →
  distributeItems MAP_WIDTH MAP_HEIGHT rand fuel map σ
    = (Normal [], mkGlobals [] (draws σ)).
Proof.
  intros H. unfold distributeItems. destruct map as [m|]; [|done].
  by rewrite H.
Qed.

(** C8, as amended: on an absent or zero-length map [distributeItems]
    returns the empty sequence without drawing a random number (the map is
    never written by [distributeItems]); the registry is empty after the
    call, its previous contents having been cleared before validation. *)
Theorem distributeItems_invalid_map (MAP_WIDTH MAP_HEIGHT : Z) (rand : nat → Q)
    (fuel : nat) (map : option JsArray) (σ : Globals) :
  invalid_map map = true →
  distributeItems MAP_WIDTH MAP_HEIGHT rand fuel map σ
    = (Normal [], mkGlobals [] (draws σ)).
Proof. apply distributeItems_rejects_invalid_map. Qed.

Lemma distributeItems_invalid_map_witness :
  invalid_map (Some (array_of_list [])) = true ∧
  distributeItems 4 1 (constant_draws 0) 400 (Some (array_of_list []))
      (mkGlobals [short_sword_at_origin] 7)
    = (Normal [], mkGlobals [] 7).
Proof.
  split; [reflexivity|].
  apply (distributeItems_invalid_map 4 1 (constant_draws 0) 400
           (Some (array_of_list [])) (mkGlobals [short_sword_at_origin] 7)).
  reflexivity.
Defined.

(** ** Distribution and pickup, for any host configuration *)

Section HostProperties.

Variables MAP_WIDTH MAP_HEIGHT : Z.
Variable rand : nat → Q.

(** [Math.random()] yields a number in the half-open unit interval. *)
Hypothesis rand_unit : ∀ n, (0 <= rand n)%Q ∧ (rand n < 1)%Q.

Lemma random_below_eq (n : Z) (σ : Globals) :
  random_below rand n σ
    = (Normal (Qfloor (rand (draws σ) * inject_Z n)), after_draws 1 σ).
Proof. reflexivity. Qed.

Lemma getItemAtPosition_none (x y : Z) (σ : Globals) :
  (∀ p, p ∈ mapItems σ → ¬ (mi_x p = x ∧ mi_y p = y)) →
  getItemAtPosition x y σ = (Normal None, σ).
Proof.
  intros Hno. unfold getItemAtPosition, mbind, M_bind, get_mapItems.
  destruct (list_find _ (mapItems σ)) as [[i p]|] eqn:Hfind; [|done].
  apply list_find_Some in Hfind as (Hp & Hxy & _).
  destruct (Hno p); [by eapply list_elem_of_lookup_2|done].
Qed.

Lemma getItemAtPosition_first (σ : Globals) (i : nat) (p : PlacedItem) :
  mapItems σ !! i = Some p →
  (∀ j q, mapItems σ !! j = Some q → (j < i)%nat → coordinate q ≠ coordinate p) →
  getItemAtPosition (mi_x p) (mi_y p) σ
    = (Normal (Some (mi_item p)), mkGlobals (delete i (mapItems σ)) (draws σ)).
Proof.
  intros Hp Hfirst. unfold getItemAtPosition, mbind, M_bind, get_mapItems.
  assert (list_find (λ item, mi_x item = mi_x p ∧ mi_y item = mi_y p) (mapItems σ)
          = Some (i, p)) as ->; [|done].
  apply list_find_Some. repeat split; [done|].
  intros j q Hq Hj [Hx Hy]. apply (Hfirst j q Hq Hj). unfold coordinate. congruence.
Qed.

Lemma fallback_weapon (σ : Globals) :
  ∃ w, w ∈ WEAPONS ∧
       item_at WEAPONS (Qfloor (rand (draws σ) * inject_Z 9)) = Some w ∧
       fallback_item rand (Some "\") σ = (Normal (Some w), after_draws 1 σ).
Proof.
  destruct (item_at_in_range WEAPONS (Qfloor (rand (draws σ) * inject_Z 9)))
    as (w & Hw & Hin).
  { apply Qfloor_scaled_range; [apply rand_unit..|done]. }
  exists w. split; [done|]. split; [done|].
  unfold fallback_item.
  rewrite decide_True by auto. rewrite decide_True by done.
  mrun. change (getItemsByType (Some "weapon")) with WEAPONS.
  change (0 <? Z.of_nat (length WEAPONS)) with true. mrun.
  change (Z.of_nat (length WEAPONS)) with 9. rewrite Hw. reflexivity.
Qed.

Lemma place_symbol_valid (m : JsArray) (p : PlacedItem) :
  invalid_map (Some m) = false →
  invalid_map (Some (place_symbol MAP_WIDTH m p)) = false.
Proof.
  intros H. unfold place_symbol. case_decide; [|done]. by apply array_set_valid.
Qed.

Lemma updateMapWithItems_valid (m : JsArray) (l : list PlacedItem) :
  invalid_map (Some m) = false →
  invalid_map (Some (foldl (place_symbol MAP_WIDTH) m l)) = false.
Proof.
  revert m. induction l as [|p l IH]; intros m H; simpl in *; [done|].
  apply IH. by apply place_symbol_valid.
Qed.

(** The round trip of [updateMapWithItems] and [pickupItem] for a registry
    entry that is the first one at its coordinate: the pickup returns
    true, appends that entry's item to the inventory, removes the entry
    from the registry and leaves the floor code on its tile. *)
Lemma pickupItem_after_update_first (pl : Player) (m : JsArray) (σ : Globals)
    (i : nat) (p : PlacedItem) (inv : list Item) :
  mapItems σ !! i = Some p →
  (∀ j q, mapItems σ !! j = Some q → (j < i)%nat → coordinate q ≠ coordinate p) →
  p_x pl = Some (mi_x p) → p_y pl = Some (mi_y p) → inventory pl = Some inv →
  invalid_map (Some m) = false →
  let index := mi_y p * MAP_WIDTH + mi_x p in
  ∃ m1 m2,
    updateMapWithItems MAP_WIDTH (Some m) σ = (Normal (Some m1), σ) ∧
    pickupItem MAP_WIDTH rand (Some pl) (Some m1) σ
      = (Normal (true,
                 Some (mkPlayer (p_x pl) (p_y pl) (Some (inv ++ [mi_item p])) (equipment pl)),
                 Some m2),
         mkGlobals (delete i (mapItems σ)) (draws σ)) ∧
    array_get m2 index = Some ".".
Proof.
  intros Hp Hfirst Hx Hy Hinv Hvalid index.
  exists (foldl (place_symbol MAP_WIDTH) m (mapItems σ)).
  eexists. split; [reflexivity|].
  unfold pickupItem.
  rewrite (updateMapWithItems_valid m (mapItems σ) Hvalid), Hx, Hy.
  unfold mbind at 1. unfold M_bind at 1.
  rewrite (getItemAtPosition_first σ i p Hp Hfirst).
  unfold addToInventory. rewrite Hinv. mrun. rewrite ?Hx, ?Hy.
  split; [reflexivity|]. apply array_get_set_eq.
Qed.

(** C5: when the player stands on a cell that holds the weapon symbol and
    the registry has no entry at the player's coordinate, [pickupItem]
    draws one random number, takes the weapon at that index of the
    [WEAPONS] catalog, appends it to the player's inventory, resets the
    cell to the floor code and returns true. *)
Theorem pickupItem_synthesizes_weapon (pl : Player) (m : JsArray) (σ : Globals)
    (x y : Z) (inv : list Item) :
  p_x pl = Some x → p_y pl = Some y → inventory pl = Some inv →
  invalid_map (Some m) = false →
  array_get m (y * MAP_WIDTH + x) = Some "\" →
  (∀ p, p ∈ mapItems σ → ¬ (mi_x p = x ∧ mi_y p = y)) →
  ∃ w m',
    w ∈ WEAPONS ∧
    item_at WEAPONS (Qfloor (rand (draws σ) * inject_Z 9)) = Some w ∧
    pickupItem MAP_WIDTH rand (Some pl) (Some m) σ
      = (Normal (true,
                 Some (mkPlayer (p_x pl) (p_y pl) (Some (inv ++ [w])) (equipment pl)),
                 Some m'),
         after_draws 1 σ) ∧
    m' = array_set m (y * MAP_WIDTH + x) "." ∧
    array_get m' (y * MAP_WIDTH + x) = Some ".".
Proof.
  intros Hx Hy Hinv Hvalid Hcell Hno.
  destruct (fallback_weapon σ) as (w & Hw & Hsel & Hfb).
  exists w, (array_set m (y * MAP_WIDTH + x) "."). split; [done|].
  split; [done|]. split; [|split; [done|apply array_get_set_eq]].
  unfold pickupItem. rewrite Hvalid, Hx, Hy.
  unfold mbind at 1. unfold M_bind at 1.
  rewrite (getItemAtPosition_none x y σ Hno), Hcell.
  unfold mbind at 1. unfold M_bind at 1. rewrite Hfb.
  unfold addToInventory. rewrite Hinv. mrun. rewrite ?Hx, ?Hy. reflexivity.
Qed.

(** *** The placement loop *)

Lemma roll_item_type_spec (σ : Globals) :
  ∃ ty sym k,
    roll_item_type rand σ = (Normal (ty, sym), after_draws k σ) ∧
    (ty = "weapon" ∨ ty = "armor" ∨ ty = "ring" ∨ ty = "talisman").
Proof.
  unfold roll_item_type. mrun.
  destruct (Qlt_le_dec (rand (draws σ)) (4 # 10)).
  { exists "weapon", "\", 1%nat. auto. }
  destruct (Qlt_le_dec (rand (draws σ)) (7 # 10)).
  { exists "armor", "&", 1%nat. auto. }
  mrun. destruct (Qlt_le_dec _ (1 # 2)).
  { exists "ring", "$", 2%nat. auto. }
  exists "talisman", "$", 2%nat. auto 6.
Qed.

Lemma catalog_selection (ty : string) (n : nat) :
  ty = "weapon" ∨ ty = "armor" ∨ ty = "ring" ∨ ty = "talisman" →
  let items := getItemsByType (Some ty) in
  (0 <? Z.of_nat (length items)) = true ∧
  ∃ it, item_at items (Qfloor (rand n * inject_Z (Z.of_nat (length items)))) = Some it
        ∧ it ∈ items.
Proof.
  intros Hty items.
  assert (0 < Z.of_nat (length items)) as Hlen.
  { subst items. destruct Hty as [-> | [-> | [-> | ->]]]; done. }
  split; [by apply Z.ltb_lt|].
  apply item_at_in_range, Qfloor_scaled_range; [apply rand_unit..|done].
Qed.

(** An attempt returns normally; it either changes nothing but the draw
    counter, or appends one entry that sits on a floor tile. *)
Lemma place_attempt_spec (m : JsArray) (placedItems : Z) (σ : Globals) :
  ∃ placed' σ',
    place_attempt MAP_WIDTH MAP_HEIGHT rand m placedItems σ = (Normal placed', σ') ∧
    ((placed' = placedItems ∧ mapItems σ' = mapItems σ) ∨
     (∃ p, placed' = placedItems + 1 ∧ mapItems σ' = mapItems σ ++ [p] ∧
           on_floor MAP_WIDTH m p)).
Proof.
  unfold place_attempt. mrun.
  set (x := Qfloor (rand (draws σ) * inject_Z MAP_WIDTH)).
  set (y := Qfloor (rand (S (draws σ)) * inject_Z MAP_HEIGHT)).
  case_decide as Hfloor; [|eauto 6].
  set (σ2 := mkGlobals (mapItems σ) (S (S (draws σ)))).
  destruct (roll_item_type_spec σ2) as (ty & sym & k & -> & Hty).
  destruct (catalog_selection ty (draws (after_draws k σ2)) Hty) as [Hpos (it & Hit & _)].
  rewrite Hpos. mrun. cbn [draws after_draws] in *. rewrite Hit.
  mrun. do 2 eexists. split; [reflexivity|]. right.
  eexists. split; [done|]. split; [reflexivity|]. exact Hfloor.
Qed.

(** The loop, by induction on the unrolling bound: whenever the bound
    covers the attempts that remain, the loop returns normally. *)
Lemma distribute_loop_spec (m : JsArray) (itemCount maxAttempts : Z) (fuel : nat) :
  ∀ (placedItems attempts : Z) (σ : Globals),
    (Z.to_nat (maxAttempts - attempts) ≤ fuel)%nat →
    ∃ placed' attempts' σ' new,
      distribute_loop MAP_WIDTH MAP_HEIGHT rand fuel m itemCount maxAttempts
        placedItems attempts σ = (Normal (placed', attempts'), σ') ∧
      mapItems σ' = mapItems σ ++ new ∧
      placed' = placedItems + Z.of_nat (length new) ∧
      Forall (on_floor MAP_WIDTH m) new ∧
      attempts ≤ attempts' ≤ Z.max attempts maxAttempts ∧
      placed' ≤ Z.max placedItems itemCount.
Proof.
  induction fuel as [|fuel IH]; intros placedItems attempts σ Hfuel; simpl.
  - destruct (placedItems <? itemCount) eqn:Hp; simpl;
      [destruct (Z.ltb_spec attempts maxAttempts); [lia|]|];
      exists placedItems, attempts, σ, []; rewrite app_nil_r;
      (split; [reflexivity|]); repeat split; simpl; auto; lia.
  - destruct (placedItems <? itemCount) eqn:Hp; simpl;
      [destruct (Z.ltb_spec attempts maxAttempts) as [Ha|Ha]|].
    2,3: exists placedItems, attempts, σ, []; rewrite app_nil_r;
      (split; [reflexivity|]); repeat split; simpl; auto; lia.
    apply Z.ltb_lt in Hp.
    destruct (place_attempt_spec m placedItems σ) as (p1 & σ1 & Hstep & Hcase).
    unfold mbind, M_bind. rewrite Hstep.
    destruct (IH p1 (attempts + 1) σ1)
      as (p2 & a2 & σ2 & new & Hloop & Hitems & Hp2 & Hfl & Ha2 & Hle); [lia|].
    rewrite Hloop.
    destruct Hcase as [[-> Hsame]|(p & -> & Hpush & Hpf)].
    + exists p2, a2, σ2, new. rewrite <- Hsame.
      repeat split; auto; lia.
    + exists p2, a2, σ2, (p :: new). rewrite Hitems, Hpush, <- app_assoc.
      repeat split; auto; simpl length; lia.
Qed.

(** Any two unrolling bounds that cover the remaining attempts give the
    same run. *)
Lemma distribute_loop_fuel_irrelevant (m : JsArray) (itemCount maxAttempts : Z)
    (fuel : nat) :
  ∀ (fuel' : nat) (placedItems attempts : Z) (σ : Globals),
    (Z.to_nat (maxAttempts - attempts) ≤ fuel)%nat →
    (Z.to_nat (maxAttempts - attempts) ≤ fuel')%nat →
    distribute_loop MAP_WIDTH MAP_HEIGHT rand fuel m itemCount maxAttempts
      placedItems attempts σ
    = distribute_loop MAP_WIDTH MAP_HEIGHT rand fuel' m itemCount maxAttempts
        placedItems attempts σ.
Proof.
  induction fuel as [|fuel IH]; intros [|fuel'] placedItems attempts σ H1 H2;
    simpl; [done| | |].
  1,2: destruct (placedItems <? itemCount); simpl; [|done];
       destruct (Z.ltb_spec attempts maxAttempts); [lia|done].
  destruct (placedItems <? itemCount); simpl; [|done].
  destruct (Z.ltb_spec attempts maxAttempts); [|done].
  destruct (place_attempt_spec m placedItems σ) as (p1 & σ1 & Hstep & _).
  unfold mbind, M_bind. rewrite Hstep. apply IH; lia.
Qed.

Lemma navigableTiles_nonneg (m : JsArray) : 0 ≤ navigableTiles m.
Proof. unfold navigableTiles. lia. Qed.

Lemma baseItemCount_lower (m : JsArray) :
  0 < MAP_WIDTH → 0 < MAP_HEIGHT → minItems ≤ baseItemCount MAP_WIDTH MAP_HEIGHT m.
Proof.
  intros HW HH. unfold baseItemCount.
  enough (0 ≤ Qfloor (inject_Z (navigableTiles m) / inject_Z (MAP_WIDTH * MAP_HEIGHT)
                      * inject_Z (maxItems - minItems))) by lia.
  change 0 with (Qfloor 0). apply Qfloor_resp_le.
  apply Qmult_le_0_compat; [|done].
  apply Qle_shift_div_l.
  - change 0%Q with (inject_Z 0). rewrite <- Zlt_Qlt. lia.
  - rewrite Qmult_0_l. change 0%Q with (inject_Z 0). rewrite <- Zle_Qle.
    apply navigableTiles_nonneg.
Qed.

(** The random offset [Math.floor(Math.random() * 10) - 5] lies in -5..4. *)
Lemma offset_range (n : nat) : -5 ≤ Qfloor (rand n * inject_Z 10) - 5 ≤ 4.
Proof.
  destruct (rand_unit n) as [H0 H1].
  pose proof (Qfloor_scaled_range (rand n) 10 H0 H1). lia.
Qed.

Lemma itemCount_of_range (m : JsArray) (n : nat) :
  0 < MAP_WIDTH → 0 < MAP_HEIGHT →
  5 ≤ itemCount_of MAP_WIDTH MAP_HEIGHT m (Qfloor (rand n * inject_Z 10)) ≤ maxItems.
Proof.
  intros HW HH. unfold itemCount_of.
  pose proof (baseItemCount_lower m HW HH). pose proof (offset_range n).
  unfold minItems, maxItems in *. lia.
Qed.

(** What a call on a valid map does, for any sufficient unrolling bound. *)
Lemma distributeItems_valid_spec (fuel : nat) (m : JsArray) (σ : Globals) :
  0 < MAP_WIDTH → 0 < MAP_HEIGHT → (400 ≤ fuel)%nat →
  invalid_map (Some m) = false →
  ∃ log σ',
    distribute_run MAP_WIDTH MAP_HEIGHT rand fuel m (mkGlobals [] (draws σ))
      = (Normal log, σ') ∧
    distributeItems MAP_WIDTH MAP_HEIGHT rand fuel (Some m) σ
      = (Normal (mapItems σ'), σ') ∧
    log_itemCount log
      = itemCount_of MAP_WIDTH MAP_HEIGHT m (Qfloor (rand (draws σ) * inject_Z 10)) ∧
    5 ≤ log_itemCount log ≤ maxItems ∧
    0 ≤ log_attempts log ≤ 10 * log_itemCount log ∧
    log_placedItems log = Z.of_nat (length (mapItems σ')) ∧
    log_placedItems log ≤ log_itemCount log ∧
    Forall (on_floor MAP_WIDTH m) (mapItems σ').
Proof.
  intros HW HH Hfuel Hvalid.
  pose proof (itemCount_of_range m (draws σ) HW HH) as Hic.
  set (ic := itemCount_of MAP_WIDTH MAP_HEIGHT m (Qfloor (rand (draws σ) * inject_Z 10))) in *.
  set (σ1 := mkGlobals [] (S (draws σ))).
  destruct (distribute_loop_spec m ic (ic * 10) fuel 0 0 σ1)
    as (p' & a' & σ' & new & Hloop & Hitems & Hp' & Hfl & Ha' & Hle).
  { unfold maxItems in Hic. lia. }
  exists (mkLog ic p' a'), σ'.
  assert (distribute_run MAP_WIDTH MAP_HEIGHT rand fuel m (mkGlobals [] (draws σ))
          = (Normal (mkLog ic p' a'), σ')) as Hrun.
  { unfold distribute_run. mrun. fold ic. fold σ1. by rewrite Hloop. }
  split; [exact Hrun|]. split.
  { unfold distributeItems. rewrite Hvalid.
    unfold mbind at 1. unfold M_bind at 1. unfold set_mapItems at 1. cbv beta iota.
    unfold mbind at 1. unfold M_bind at 1. by rewrite Hrun. }
  simpl in Hitems. cbn [log_itemCount log_attempts log_placedItems].
  rewrite Hitems. repeat split; auto; lia.
Qed.

Lemma distributeItems_fuel_irrelevant (fuel fuel' : nat)
    (map : option JsArray) (σ : Globals) :
  0 < MAP_WIDTH → 0 < MAP_HEIGHT → (400 ≤ fuel)%nat → (400 ≤ fuel')%nat →
  distributeItems MAP_WIDTH MAP_HEIGHT rand fuel map σ
  = distributeItems MAP_WIDTH MAP_HEIGHT rand fuel' map σ.
Proof.
  intros HW HH H1 H2. unfold distributeItems.
  destruct map as [m|]; [|done]. destruct (invalid_map (Some m)); [done|].
  unfold distribute_run. mrun.
  pose proof (itemCount_of_range m (draws σ) HW HH) as Hic. unfold maxItems in Hic.
  rewrite (distribute_loop_fuel_irrelevant m _ _ fuel fuel'); [done|lia..].
Qed.

(** What the floor check does deliver: every entry of the returned
    sequence sits on a tile that holds the floor code ([distributeItems]
    never writes the map, so the tile held it when the entry was pushed). *)
Lemma distributeItems_entries_on_floor (fuel : nat) (m : JsArray) (σ : Globals) :
  0 < MAP_WIDTH → 0 < MAP_HEIGHT → (400 ≤ fuel)%nat →
  invalid_map (Some m) = false →
  ∃ l σ',
    distributeItems MAP_WIDTH MAP_HEIGHT rand fuel (Some m) σ = (Normal l, σ') ∧
    Forall (on_floor MAP_WIDTH m) l.
Proof.
  intros HW HH Hfuel Hvalid.
  destruct (distributeItems_valid_spec fuel m σ HW HH Hfuel Hvalid)
    as (log & σ' & _ & Hcall & _ & _ & _ & _ & _ & Hfl).
  eauto.
Qed.

(** C2, as amended: on a valid map, with [u] the random offset in -5..4,
    the target item count is never above 40 and equals
    clamp(10 + floor(navigable / (MAP_WIDTH * MAP_HEIGHT) * 30) + u, 10, 40)
    whenever the unclamped value is at least 10.  The number of items
    placed is the length of the returned sequence and lies between 0 and
    the target count, hence is at most 40; it can be below 10. *)
Theorem itemCount_and_placement_bounds (fuel : nat) (m : JsArray) (σ : Globals) :
  0 < MAP_WIDTH → 0 < MAP_HEIGHT → (400 ≤ fuel)%nat →
  invalid_map (Some m) = false →
  let u := Qfloor (rand (draws σ) * inject_Z 10) - 5 in
  let unclamped :=
    10 + Qfloor (inject_Z (navigableTiles m) / inject_Z (MAP_WIDTH * MAP_HEIGHT)
                 * inject_Z 30) + u in
  ∃ log σ',
    distribute_run MAP_WIDTH MAP_HEIGHT rand fuel m (mkGlobals [] (draws σ))
      = (Normal log, σ') ∧
    distributeItems MAP_WIDTH MAP_HEIGHT rand fuel (Some m) σ
      = (Normal (mapItems σ'), σ') ∧
    -5 ≤ u ≤ 4 ∧
    log_itemCount log ≤ 40 ∧
    (10 ≤ unclamped →
       log_itemCount log = spec_itemCount (navigableTiles m) (MAP_WIDTH * MAP_HEIGHT) u) ∧
    log_placedItems log = Z.of_nat (length (mapItems σ')) ∧
    0 ≤ log_placedItems log ≤ log_itemCount log.
Proof.
  intros HW HH Hfuel Hvalid u unclamped.
  destruct (distributeItems_valid_spec fuel m σ HW HH Hfuel Hvalid)
    as (log & σ' & Hrun & Hcall & Hic & Hrange & _ & Hlen & Hle & _).
  exists log, σ'. split; [done|]. split; [done|].
  split; [apply offset_range|].
  assert (log_itemCount log = Z.min 40 unclamped) as Heq.
  { rewrite Hic. unfold itemCount_of, baseItemCount, unclamped, u, maxItems, minItems.
    change (inject_Z (40 - 10)) with (inject_Z 30). f_equal. lia. }
  split; [lia|]. split.
  { intros Hlow. rewrite Heq. unfold spec_itemCount, clamp. fold unclamped. lia. }
  split; [done|]. lia.
Qed.

(** C9: [distributeItems] returns on every map, absent and empty ones
    included, for any unrolling bound of at least 400, and the run is the
    same for all such bounds.  On a valid map the number of attempts made
    is at most 10 times the target count, counted over the whole call; and
    when no cell of the map holds the floor code, no item is placed: the
    result and the registry are empty. *)
Theorem distributeItems_terminates_within_budget (fuel : nat)
    (map : option JsArray) (σ : Globals) :
  0 < MAP_WIDTH → 0 < MAP_HEIGHT → (400 ≤ fuel)%nat →
  ∃ l σ',
    distributeItems MAP_WIDTH MAP_HEIGHT rand fuel map σ = (Normal l, σ') ∧
    (∀ fuel', (400 ≤ fuel')%nat →
       distributeItems MAP_WIDTH MAP_HEIGHT rand fuel' map σ = (Normal l, σ')) ∧
    l = mapItems σ' ∧
    (∀ m, map = Some m → invalid_map map = false →
       ∃ log,
         distribute_run MAP_WIDTH MAP_HEIGHT rand fuel m (mkGlobals [] (draws σ))
           = (Normal log, σ') ∧
         0 ≤ log_attempts log ≤ 10 * log_itemCount log ∧
         log_placedItems log = Z.of_nat (length l)) ∧
    ((∀ m i, map = Some m → array_get m i ≠ Some ".") → l = []).
Proof.
  intros HW HH Hfuel.
  destruct (invalid_map map) eqn:Hvalid.
  { exists [], (mkGlobals [] (draws σ)).
    split; [by apply distributeItems_rejects_invalid_map|].
    split; [intros; by apply distributeItems_rejects_invalid_map|].
    split; [done|]. split; [|done]. intros m _ ?. done. }
  destruct map as [m|]; [|done].
  destruct (distributeItems_valid_spec fuel m σ HW HH Hfuel Hvalid)
    as (log & σ' & Hrun & Hcall & _ & _ & Hatt & Hlen & _ & Hfl).
  exists (mapItems σ'), σ'. split; [done|].
  split; [intros fuel' Hfuel';
          by rewrite (distributeItems_fuel_irrelevant fuel' fuel)|].
  split; [done|]. split.
  - intros m' [= <-] _. exists log. auto.
  - intros Hnone. destruct (mapItems σ') as [|p l]; [done|].
    apply Forall_cons in Hfl as [Hp _]. by destruct (Hnone m _ eq_refl Hp).
Qed.

End HostProperties.

(** ** Concrete runs *)

Lemma zero_draws_unit :
  ∀ n, (0 <= constant_draws 0 n)%Q ∧ (constant_draws 0 n < 1)%Q.
Proof. by apply constant_draws_unit. Qed.

Lemma pickupItem_synthesizes_weapon_witness :
  ∃ w m',
    w ∈ WEAPONS ∧
    item_at WEAPONS (Qfloor (constant_draws 0 0%nat * inject_Z 9)) = Some w ∧
    pickupItem 4 (constant_draws 0) (Some wanderer) (Some drifted_map) fresh_globals
      = (Normal (true,
                 Some (mkPlayer (Some 2) (Some 3) (Some ([] ++ [w])) no_equipment),
                 Some m'),
         after_draws 1 fresh_globals) ∧
    m' = array_set drifted_map (3 * 4 + 2) "." ∧
    array_get m' (3 * 4 + 2) = Some ".".
Proof.
  apply (pickupItem_synthesizes_weapon 4 (constant_draws 0) zero_draws_unit
           wanderer drifted_map fresh_globals 2 3 []);
    try reflexivity.
  intros p Hp. inversion Hp.
Defined.

Lemma itemCount_and_placement_bounds_witness :
  let u := Qfloor (constant_draws 0 0%nat * inject_Z 10) - 5 in
  let unclamped :=
    10 + Qfloor (inject_Z (navigableTiles four_tile_map) / inject_Z (4 * 1)
                 * inject_Z 30) + u in
  ∃ log σ',
    distribute_run 4 1 (constant_draws 0) 400 four_tile_map (mkGlobals [] 0)
      = (Normal log, σ') ∧
    distributeItems 4 1 (constant_draws 0) 400 (Some four_tile_map) fresh_globals
      = (Normal (mapItems σ'), σ') ∧
    -5 ≤ u ≤ 4 ∧
    log_itemCount log ≤ 40 ∧
    (10 ≤ unclamped →
       log_itemCount log = spec_itemCount (navigableTiles four_tile_map) (4 * 1) u) ∧
    log_placedItems log = Z.of_nat (length (mapItems σ')) ∧
    0 ≤ log_placedItems log ≤ log_itemCount log.
Proof.
  apply (itemCount_and_placement_bounds 4 1 (constant_draws 0) zero_draws_unit
           400%nat four_tile_map fresh_globals);
    [lia | lia | lia | reflexivity].
Defined.

Lemma distributeItems_terminates_within_budget_witness :
  ∃ l σ',
    distributeItems 1 1 (constant_draws 0) 400 (Some wall_map) fresh_globals
      = (Normal l, σ') ∧
    (∀ fuel', (400 ≤ fuel')%nat →
       distributeItems 1 1 (constant_draws 0) fuel' (Some wall_map) fresh_globals
         = (Normal l, σ')) ∧
    l = mapItems σ' ∧
    (∀ m, Some wall_map = Some m → invalid_map (Some wall_map) = false →
       ∃ log,
         distribute_run 1 1 (constant_draws 0) 400 m (mkGlobals [] 0)
           = (Normal log, σ') ∧
         0 ≤ log_attempts log ≤ 10 * log_itemCount log ∧
         log_placedItems log = Z.of_nat (length l)) ∧
    ((∀ m i, Some wall_map = Some m → array_get m i ≠ Some ".") → l = []).
Proof.
  apply (distributeItems_terminates_within_budget 1 1 (constant_draws 0)
           zero_draws_unit 400%nat (Some wall_map) fresh_globals);
    lia.
Defined.

(** C2, counterexample: on the 1-by-1 wall map with every draw 0 the run
    computes the target count 5, where the clamp of the specification gives
    10, and places no item at all, so neither the target nor the number of
    items placed lies in [10, 40]. *)
Lemma itemCount_below_ten_on_wall_map :
  ∃ log σ',
    distribute_run 1 1 (constant_draws 0) 400 wall_map fresh_globals
      = (Normal log, σ') ∧
    distributeItems 1 1 (constant_draws 0) 400 (Some wall_map) fresh_globals
      = (Normal [], σ') ∧
    log_itemCount log = 5 ∧
    spec_itemCount (navigableTiles wall_map) (1 * 1) (-5) = 10 ∧
    log_itemCount log ≠ spec_itemCount (navigableTiles wall_map) (1 * 1) (-5) ∧
    log_placedItems log = 0 ∧
    ¬ (10 ≤ log_itemCount log ≤ 40) ∧
    ¬ (10 ≤ log_placedItems log ≤ 40).
Proof.
  do 2 eexists. split; [vm_compute; reflexivity|].
  split; [vm_compute; reflexivity|].
  cbn [log_itemCount log_placedItems].
  split; [reflexivity|]. split; [reflexivity|].
  split; [by vm_compute|]. split; [reflexivity|]. lia.
Qed.

(** C1, at the failing input: on the 4-by-1 map [".", ".", "#", "."] with
    every draw 0, [distributeItems] returns 27 entries, and its first two
    entries (as all the others) have the same coordinate (0, 0): the tile
    is still the floor code when it is drawn again, because placing an item
    records it in the registry only. *)
Theorem distributeItems_stacks_items_on_one_tile :
  ∃ l σ' a b,
    distributeItems 4 1 (constant_draws 0) 400 (Some four_tile_map) fresh_globals
      = (Normal l, σ') ∧
    length l = 27%nat ∧
    l !! 0%nat = Some a ∧ l !! 1%nat = Some b ∧
    coordinate a = coordinate b ∧
    ¬ NoDup (coordinate <$> l).
Proof.
  do 4 eexists. split; [vm_compute; reflexivity|].
  split; [reflexivity|]. split; [reflexivity|]. split; [reflexivity|].
  split; [reflexivity|].
  intros Hnd. apply NoDup_cons in Hnd as [Hnotin _].
  apply Hnotin. apply list_elem_of_here.
Qed.

(** C3, at the failing input: [distributeItems] on the 4-by-1 map with the
    stacking draws registers the Short Sword and then the Iron Helmet, both
    at (0, 0).  For the helmet's entry [p], whose tile holds the floor
    code, [updateMapWithItems] followed by [pickupItem] at (0, 0) returns
    true but appends the Short Sword, not [p]'s item, and [p] is still in
    the registry afterwards. *)
Theorem pickupItem_takes_other_item_on_shared_tile :
  ∃ registry σ1 p m1 σ2 pl' m2 σ3,
    distributeItems 4 1 stacking_draws 400 (Some four_tile_map) fresh_globals
      = (Normal registry, σ1) ∧
    registry !! 1%nat = Some p ∧
    coordinate p = (0, 0) ∧
    mi_item p = IronHelmet ∧
    on_floor 4 four_tile_map p ∧
    updateMapWithItems 4 (Some four_tile_map) σ1 = (Normal (Some m1), σ2) ∧
    pickupItem 4 stacking_draws (Some explorer) (Some m1) σ2
      = (Normal (true, Some pl', Some m2), σ3) ∧
    inventory pl' = Some [ShortSword] ∧
    inventory pl' ≠ Some [IronHelmet] ∧
    mapItems σ3 !! 0%nat = Some p.
Proof.
  do 8 eexists. split; [vm_compute; reflexivity|].
  split; [reflexivity|]. split; [reflexivity|]. split; [reflexivity|].
  split; [reflexivity|]. split; [vm_compute; reflexivity|].
  split; [vm_compute; reflexivity|].
  split; [reflexivity|]. split; [discriminate|]. reflexivity.
Qed.

(** The round trip does hold in that run for the first entry at (0, 0). *)
Lemma pickupItem_after_update_first_example :
  ∃ m1 m2,
    updateMapWithItems 4 (Some four_tile_map)
        (mkGlobals [short_sword_at_origin] 0)
      = (Normal (Some m1), mkGlobals [short_sword_at_origin] 0) ∧
    pickupItem 4 (constant_draws 0) (Some explorer) (Some m1)
        (mkGlobals [short_sword_at_origin] 0)
      = (Normal (true,
                 Some (mkPlayer (Some 0) (Some 0) (Some ([] ++ [ShortSword])) no_equipment),
                 Some m2),
         mkGlobals [] 0) ∧
    array_get m2 (0 * 4 + 0) = Some ".".
Proof.
  apply (pickupItem_after_update_first 4 (constant_draws 0) explorer four_tile_map
           (mkGlobals [short_sword_at_origin] 0) 0%nat short_sword_at_origin []);
    try reflexivity.
  intros j q _ Hj. lia.
Qed.

(** * Further properties *)

(** ** The catalog *)

Lemma lower_ascii_idemp (c : Ascii.ascii) : lower_ascii (lower_ascii c) = lower_ascii c.
Proof. destruct c as [[] [] [] [] [] [] [] []]; reflexivity. Qed.

Lemma toLowerCase_idemp (s : string) : toLowerCase (toLowerCase s) = toLowerCase s.
Proof. induction s as [|c s IH]; simpl; [done|]. by rewrite lower_ascii_idemp, IH. Qed.

Lemma toLowerCase_empty (s : string) : toLowerCase s = EmptyString ↔ s = EmptyString.
Proof. destruct s; simpl; split; congruence. Qed.

(** [getItemsByType] through the lower-cased key alone. *)
Lemma getItemsByType_by_key (t : string) :
  getItemsByType (Some t) =
    let k := toLowerCase t in
    if decide (k = "weapon") then WEAPONS
    else if decide (k = "armor") then ARMOR
    else if decide (k = "ring") then RINGS
    else if decide (k = "talisman") then TALISMANS
    else [].
Proof.
  unfold getItemsByType. case_decide as He; [|done].
  subst t. reflexivity.
Qed.

(** [getItemsByType] is insensitive to letter case: two type strings with
    the same lower-case form select the same catalog array. *)
Theorem getItemsByType_case_insensitive (t u : string) :
  toLowerCase t = toLowerCase u →
  getItemsByType (Some t) = getItemsByType (Some u).
Proof. intros H. rewrite !getItemsByType_by_key. simpl. by rewrite H. Qed.

Lemma getItemsByType_case_insensitive_witness :
  toLowerCase "WeApOn" = toLowerCase "weapon" ∧
  getItemsByType (Some "WeApOn") = getItemsByType (Some "weapon").
Proof.
  split; [reflexivity|].
  apply (getItemsByType_case_insensitive "WeApOn" "weapon"). reflexivity.
Defined.

Lemma catalog_types :
  Forall (fun it => it_type it = "weapon") WEAPONS ∧
  Forall (fun it => it_type it = "armor") ARMOR ∧
  Forall (fun it => it_type it = "ring") RINGS ∧
  Forall (fun it => it_type it = "talisman") TALISMANS.
Proof. repeat split; repeat constructor. Qed.

Lemma getItemsByType_member (t : string) (it : Item) :
  it ∈ getItemsByType (Some t) →
  it_type it = toLowerCase t ∧ recognised_type (toLowerCase t).
Proof.
  destruct catalog_types as (Hw & Ha & Hr & Ht).
  rewrite getItemsByType_by_key. simpl. unfold recognised_type.
  repeat case_decide; intros Hin.
  - rewrite Forall_forall in Hw. split; [|auto]. rewrite (Hw it Hin). congruence.
  - rewrite Forall_forall in Ha. split; [|auto]. rewrite (Ha it Hin). congruence.
  - rewrite Forall_forall in Hr. split; [|auto]. rewrite (Hr it Hin). congruence.
  - rewrite Forall_forall in Ht. split; [|auto]. rewrite (Ht it Hin). congruence.
  - by apply elem_of_nil in Hin.
Qed.

(** What [getItemsByType] returns: only items whose [type] is the
    lower-cased argument, which is then one of the four recognised types;
    a non-empty array for each of the four; and for any other string, and
    for a null argument, the empty array. *)
Theorem getItemsByType_selects_by_type :
  (∀ t it, it ∈ getItemsByType (Some t) →
           it_type it = toLowerCase t ∧ recognised_type (toLowerCase t)) ∧
  (∀ t, ¬ recognised_type (toLowerCase t) → getItemsByType (Some t) = []) ∧
  (∀ t, recognised_type (toLowerCase t) → getItemsByType (Some t) ≠ []) ∧
  getItemsByType None = [].
Proof.
  split; [exact getItemsByType_member|]. split; [|split; [|done]].
  - intros t Hno. rewrite getItemsByType_by_key. simpl. unfold recognised_type in Hno.
    repeat case_decide; tauto.
  - intros t Hrec. rewrite getItemsByType_by_key. simpl.
    destruct Hrec as [-> | [-> | [-> | ->]]]; done.
Qed.

Lemma catalog_ids_distinct : NoDup (it_id <$> ALL_ITEMS).
Proof. apply (bool_decide_unpack _). by vm_compute. Qed.

Lemma list_find_distinct_key {A B} `{EqDecision B} (f : A → B) (l : list A) (x : A) :
  NoDup (f <$> l) → x ∈ l →
  ∃ i, list_find (fun y => f y = f x) l = Some (i, x).
Proof.
  induction l as [|a l IH]; intros Hnd Hin; [by apply elem_of_nil in Hin|].
  rewrite fmap_cons in Hnd. apply NoDup_cons in Hnd as [Hna Hnd].
  simpl. case_decide as Ha.
  - apply elem_of_cons in Hin as [->|Hin]; [by exists 0%nat|].
    destruct Hna. rewrite Ha. apply list_elem_of_fmap. by exists x.
  - apply elem_of_cons in Hin as [->|Hin]; [done|].
    destruct (IH Hnd Hin) as [i ->]. by exists (S i).
Qed.

(** [findItemById] and the catalog: every catalog item is found under its
    own id; anything found carries the id asked for and is a catalog item;
    and nothing is found exactly when no catalog item has that id. *)
Theorem findItemById_round_trip :
  (∀ it, it ∈ ALL_ITEMS → findItemById (it_id it) = Some it) ∧
  (∀ id it, findItemById id = Some it → it_id it = id ∧ it ∈ ALL_ITEMS) ∧
  (∀ id, findItemById id = None ↔ ∀ it, it ∈ ALL_ITEMS → it_id it ≠ id).
Proof.
  unfold findItemById. fold ALL_ITEMS. split; [|split].
  - intros it Hin.
    destruct (list_find_distinct_key it_id ALL_ITEMS it catalog_ids_distinct Hin)
      as [i ->]. done.
  - intros id it H.
    destruct (list_find _ ALL_ITEMS) as [[i x]|] eqn:Hf; simpl in H; [|done].
    injection H as ->. apply list_find_Some in Hf as (Hl & Hid & _).
    split; [done|]. by eapply list_elem_of_lookup_2.
  - intros id. split.
    + intros H it Hin Hid.
      destruct (list_find _ ALL_ITEMS) as [[i x]|] eqn:Hf; simpl in H; [done|].
      eapply list_find_None in Hf. rewrite Forall_forall in Hf. by apply (Hf it).
    + intros H. destruct (list_find _ ALL_ITEMS) as [[i x]|] eqn:Hf; simpl; [|done].
      apply list_find_Some in Hf as (Hl & Hid & _).
      destruct (H x); [by eapply list_elem_of_lookup_2|done].
Qed.

(** The two-handed initialisation [WEAPONS.find((w) => w.id === id).twoHanded = true],
    when a weapon with that id exists: the array keeps its length, every
    weapon keeps all its other fields, the first weapon with the id becomes
    two-handed and no other weapon's flag changes. *)
Theorem markTwoHanded_marks_first (id : string) (ws : list Item) (i : nat) (w : Item) :
  ws !! i = Some w → it_id w = id →
  (∀ j v, ws !! j = Some v → (j < i)%nat → it_id v ≠ id) →
  length (markTwoHanded id ws) = length ws ∧
  (∃ w', markTwoHanded id ws !! i = Some w' ∧ same_but_flag w w' ∧
         it_twoHanded w' = true) ∧
  (∀ j, j ≠ i → markTwoHanded id ws !! j = ws !! j).
Proof.
  revert i. induction ws as [|a ws IH]; intros i Hi Hid Hfirst; [done|].
  simpl. case_decide as Ha.
  - assert (i = 0%nat) as ->.
    { destruct i as [|i]; [done|]. by destruct (Hfirst 0%nat a eq_refl ltac:(lia)). }
    simpl in Hi. injection Hi as <-.
    split; [done|]. split.
    + eexists. split; [reflexivity|]. by repeat split.
    + intros [|j] ?; [done|done].
  - destruct i as [|i]; [simpl in Hi; congruence|]. simpl in Hi.
    destruct (IH i Hi Hid) as (Hlen & Hmark & Hother).
    { intros j v Hv Hj. apply (Hfirst (S j) v Hv). lia. }
    split; [simpl; by rewrite Hlen|]. split; [done|].
    intros [|j] Hj; [done|]. simpl. apply Hother. lia.
Qed.

Lemma markTwoHanded_marks_first_witness :
  length (markTwoHanded "sword_great" WEAPONS_literal) = length WEAPONS_literal ∧
  (∃ w', markTwoHanded "sword_great" WEAPONS_literal !! 4%nat = Some w' ∧
         same_but_flag (Weapon "sword_great" "Greatsword" 120 "uncommon") w' ∧
         it_twoHanded w' = true) ∧
  (∀ j, j ≠ 4%nat →
        markTwoHanded "sword_great" WEAPONS_literal !! j = WEAPONS_literal !! j).
Proof.
  apply (markTwoHanded_marks_first "sword_great" WEAPONS_literal 4
           (Weapon "sword_great" "Greatsword" 120 "uncommon"));
    [reflexivity | reflexivity |].
  intros j v Hv Hj.
  do 4 (destruct j as [|j]; [injection Hv as <-; discriminate|]). lia.
Defined.

(** ** Projecting the registry onto the map *)

Section Projection.

Variable MAP_WIDTH : Z.

Lemma place_symbol_other (m : JsArray) (p : PlacedItem) (j : Z) :
  entry_index MAP_WIDTH p ≠ j →
  array_get (place_symbol MAP_WIDTH m p) j = array_get m j.
Proof.
  intros Hne. unfold place_symbol. case_decide; [|done].
  by apply array_get_set_ne.
Qed.

Lemma place_symbol_non_floor (m : JsArray) (p : PlacedItem) (j : Z) :
  array_get m j ≠ Some "." →
  array_get (place_symbol MAP_WIDTH m p) j = array_get m j.
Proof.
  intros Hnf. destruct (decide (entry_index MAP_WIDTH p = j)) as [<-|Hne];
    [|by apply place_symbol_other].
  unfold place_symbol. by rewrite decide_False.
Qed.

Lemma projection_non_floor (l : list PlacedItem) (m : JsArray) (j : Z) :
  array_get m j ≠ Some "." →
  array_get (foldl (place_symbol MAP_WIDTH) m l) j = array_get m j.
Proof.
  revert m. induction l as [|p l IH]; intros m Hnf; simpl; [done|].
  rewrite IH; rewrite place_symbol_non_floor; done.
Qed.

Lemma projection_untouched (l : list PlacedItem) (m : JsArray) (j : Z) :
  (∀ p, p ∈ l → entry_index MAP_WIDTH p ≠ j) →
  array_get (foldl (place_symbol MAP_WIDTH) m l) j = array_get m j.
Proof.
  revert m. induction l as [|p l IH]; intros m Hno; simpl; [done|].
  rewrite IH by (intros q Hq; apply Hno; by right).
  apply place_symbol_other, Hno. by left.
Qed.

Lemma projection_cases (l : list PlacedItem) (m : JsArray) (j : Z) :
  array_get (foldl (place_symbol MAP_WIDTH) m l) j = array_get m j ∨
  ∃ p, p ∈ l ∧ entry_index MAP_WIDTH p = j ∧
       array_get (foldl (place_symbol MAP_WIDTH) m l) j = Some (mi_symbol p).
Proof.
  revert m. induction l as [|p l IH]; intros m; simpl; [by left|].
  destruct (IH (place_symbol MAP_WIDTH m p)) as [Hsame|(q & Hq & Hj & Hval)].
  - rewrite Hsame. unfold place_symbol. case_decide as Hfl; [|by left].
    destruct (decide (mi_y p * MAP_WIDTH + mi_x p = j)) as [Hj|Hj].
    + right. exists p. split; [by left|]. split; [done|].
      subst j. apply array_get_set_eq.
    + left. by apply array_get_set_ne.
  - right. exists q. split; [by right|]. done.
Qed.

(** [updateMapWithItems] writes on floor tiles only, and only entries'
    symbols: the registry and the random stream are left as they were, a
    tile that does not hold the floor code keeps its content, and a tile
    whose content changed held the floor code and now shows the symbol of a
    registry entry located at that index. *)
Theorem updateMapWithItems_writes_symbols_on_floor (m : JsArray) (σ : Globals) :
  ∃ m',
    updateMapWithItems MAP_WIDTH (Some m) σ = (Normal (Some m'), σ) ∧
    (∀ j, array_get m j ≠ Some "." → array_get m' j = array_get m j) ∧
    (∀ j, array_get m' j ≠ array_get m j →
          array_get m j = Some "." ∧
          ∃ p, p ∈ mapItems σ ∧ entry_index MAP_WIDTH p = j ∧
               array_get m' j = Some (mi_symbol p)).
Proof.
  eexists. split; [reflexivity|]. split.
  - intros j Hnf. by apply projection_non_floor.
  - intros j Hch. split.
    + destruct (decide (array_get m j = Some ".")) as [|Hnf]; [done|].
      destruct Hch. by apply projection_non_floor.
    + destruct (projection_cases (mapItems σ) m j) as [Hsame|H]; [done|exact H].
Qed.

Lemma projection_first (l1 l2 : list PlacedItem) (p : PlacedItem) (m : JsArray) :
  (∀ q, q ∈ l1 → entry_index MAP_WIDTH q ≠ entry_index MAP_WIDTH p) →
  array_get m (entry_index MAP_WIDTH p) = Some "." →
  mi_symbol p ≠ "." →
  array_get (foldl (place_symbol MAP_WIDTH) m (l1 ++ p :: l2)) (entry_index MAP_WIDTH p)
    = Some (mi_symbol p).
Proof.
  intros Hl1 Hfl Hsym. rewrite foldl_app. simpl.
  set (m1 := foldl (place_symbol MAP_WIDTH) m l1).
  assert (array_get m1 (entry_index MAP_WIDTH p) = Some ".") as Hfl1.
  { unfold m1. by rewrite projection_untouched. }
  assert (array_get (place_symbol MAP_WIDTH m1 p) (entry_index MAP_WIDTH p)
          = Some (mi_symbol p)) as Hset.
  { unfold place_symbol. fold (entry_index MAP_WIDTH p).
    rewrite decide_True by done. apply array_get_set_eq. }
  rewrite projection_non_floor; [done|]. rewrite Hset. congruence.
Qed.

(** The first registry entry at an index is the one shown: when its tile
    holds the floor code and its symbol is not the floor code itself, the
    tile holds that entry's symbol after [updateMapWithItems], whatever
    entries follow. *)
Theorem updateMapWithItems_shows_first_entry (m : JsArray) (σ : Globals)
    (i : nat) (p : PlacedItem) :
  mapItems σ !! i = Some p →
  (∀ j q, mapItems σ !! j = Some q → (j < i)%nat →
          entry_index MAP_WIDTH q ≠ entry_index MAP_WIDTH p) →
  array_get m (entry_index MAP_WIDTH p) = Some "." →
  mi_symbol p ≠ "." →
  ∃ m',
    updateMapWithItems MAP_WIDTH (Some m) σ = (Normal (Some m'), σ) ∧
    array_get m' (entry_index MAP_WIDTH p) = Some (mi_symbol p).
Proof.
  intros Hp Hfirst Hfl Hsym. eexists. split; [reflexivity|].
  rewrite <- (take_drop_middle _ _ _ Hp).
  apply projection_first; [|done..].
  intros q Hq. apply list_elem_of_lookup in Hq as [j Hj].
  pose proof (lookup_lt_Some _ _ _ Hj) as Hlt. rewrite length_take in Hlt.
  rewrite lookup_take_lt in Hj by lia. apply (Hfirst j q Hj). lia.
Qed.

Lemma projection_covers (l : list PlacedItem) (m : JsArray) (p : PlacedItem) :
  Forall (fun q => mi_symbol q ≠ ".") l → p ∈ l →
  array_get (foldl (place_symbol MAP_WIDTH) m l) (entry_index MAP_WIDTH p) ≠ Some ".".
Proof.
  intros Hsym Hin.
  destruct (decide (array_get m (entry_index MAP_WIDTH p) = Some ".")) as [Hfl|Hnf];
    [|by rewrite projection_non_floor].
  destruct (list_find (fun q => entry_index MAP_WIDTH q = entry_index MAP_WIDTH p) l)
    as [[i q]|] eqn:Hfind.
  - apply list_find_Some in Hfind as (Hq & Hidx & Hfirst).
    rewrite <- (take_drop_middle _ _ _ Hq), <- Hidx.
    rewrite projection_first.
    + rewrite Forall_forall in Hsym. intros [= Heq]. apply (Hsym q); [|done].
      by eapply list_elem_of_lookup_2.
    + intros r Hr. apply list_elem_of_lookup in Hr as [j Hj].
      pose proof (lookup_lt_Some _ _ _ Hj) as Hlt. rewrite length_take in Hlt.
      rewrite lookup_take_lt in Hj by lia. rewrite Hidx. apply (Hfirst j r Hj). lia.
    + by rewrite Hidx.
    + rewrite Forall_forall in Hsym. apply Hsym. by eapply list_elem_of_lookup_2.
  - eapply list_find_None in Hfind. rewrite Forall_forall in Hfind.
    by destruct (Hfind p Hin).
Qed.

Lemma projection_fixed (l : list PlacedItem) (m : JsArray) :
  Forall (fun q => array_get m (entry_index MAP_WIDTH q) ≠ Some ".") l →
  foldl (place_symbol MAP_WIDTH) m l = m.
Proof.
  induction l as [|p l IH]; intros Hall; simpl; [done|].
  apply Forall_cons in Hall as [Hp Hl].
  unfold place_symbol at 2. fold (entry_index MAP_WIDTH p).
  rewrite decide_False by done. by apply IH.
Qed.

(** [updateMapWithItems] is idempotent when no entry uses the floor code as
    its symbol: a second call right after the first changes nothing. *)
Theorem updateMapWithItems_idempotent (m : JsArray) (σ : Globals) :
  Forall (fun q => mi_symbol q ≠ ".") (mapItems σ) →
  ∃ m',
    updateMapWithItems MAP_WIDTH (Some m) σ = (Normal (Some m'), σ) ∧
    updateMapWithItems MAP_WIDTH (Some m') σ = (Normal (Some m'), σ).
Proof.
  intros Hsym. eexists. split; [reflexivity|].
  unfold updateMapWithItems. mrun. do 3 f_equal.
  apply projection_fixed. rewrite Forall_forall. intros p Hp.
  by apply projection_covers.
Qed.

End Projection.

Lemma updateMapWithItems_shows_first_entry_witness :
  ∃ m',
    updateMapWithItems 4 (Some four_tile_map) (mkGlobals [short_sword_at_origin] 0)
      = (Normal (Some m'), mkGlobals [short_sword_at_origin] 0) ∧
    array_get m' (entry_index 4 short_sword_at_origin)
      = Some (mi_symbol short_sword_at_origin).
Proof.
  apply (updateMapWithItems_shows_first_entry 4 four_tile_map
           (mkGlobals [short_sword_at_origin] 0) 0 short_sword_at_origin);
    [reflexivity | | reflexivity | discriminate].
  intros j q _ Hj. lia.
Defined.

Lemma updateMapWithItems_idempotent_witness :
  ∃ m',
    updateMapWithItems 4 (Some four_tile_map) (mkGlobals [short_sword_at_origin] 0)
      = (Normal (Some m'), mkGlobals [short_sword_at_origin] 0) ∧
    updateMapWithItems 4 (Some m') (mkGlobals [short_sword_at_origin] 0)
      = (Normal (Some m'), mkGlobals [short_sword_at_origin] 0).
Proof.
  apply (updateMapWithItems_idempotent 4 four_tile_map
           (mkGlobals [short_sword_at_origin] 0)).
  repeat constructor. discriminate.
Defined.

(** ** Looking up and picking up *)

(** The two outcomes of a lookup. *)
Lemma getItemAtPosition_cases (x y : Z) (σ : Globals) :
  ((∀ p, p ∈ mapItems σ → coordinate p ≠ (x, y)) ∧
   getItemAtPosition x y σ = (Normal None, σ)) ∨
  (∃ i p,
     mapItems σ !! i = Some p ∧ coordinate p = (x, y) ∧
     (∀ j q, mapItems σ !! j = Some q → (j < i)%nat → coordinate q ≠ (x, y)) ∧
     getItemAtPosition x y σ
       = (Normal (Some (mi_item p)), mkGlobals (delete i (mapItems σ)) (draws σ)) ∧
     mapItems σ = take i (mapItems σ) ++ p :: drop (S i) (mapItems σ) ∧
     delete i (mapItems σ) = take i (mapItems σ) ++ drop (S i) (mapItems σ)).
Proof.
  unfold getItemAtPosition, mbind, M_bind, get_mapItems.
  destruct (list_find _ (mapItems σ)) as [[i p]|] eqn:Hfind.
  - right. apply list_find_Some in Hfind as (Hp & [Hx Hy] & Hfirst).
    exists i, p. split; [done|]. split; [unfold coordinate; congruence|].
    split.
    { intros j q Hq Hj [= Hqx Hqy]. by apply (Hfirst j q Hq Hj). }
    split; [done|]. split; [by rewrite take_drop_middle|].
    apply delete_take_drop.
  - left. split; [|done]. intros p Hp [= Hx Hy].
    eapply list_find_None in Hfind. rewrite Forall_forall in Hfind.
    by apply (Hfind p Hp).
Qed.

(** [getItemAtPosition] either misses, leaving the state as it was, or
    removes exactly the first registry entry at (x, y) and returns its
    item: the registry loses that one entry and keeps the order of the
    others, and no random number is drawn. *)
Theorem getItemAtPosition_removes_first_match (x y : Z) (σ : Globals) :
  ((∀ p, p ∈ mapItems σ → coordinate p ≠ (x, y)) ∧
   getItemAtPosition x y σ = (Normal None, σ)) ∨
  (∃ i p,
     mapItems σ !! i = Some p ∧ coordinate p = (x, y) ∧
     (∀ j q, mapItems σ !! j = Some q → (j < i)%nat → coordinate q ≠ (x, y)) ∧
     getItemAtPosition x y σ
       = (Normal (Some (mi_item p)), mkGlobals (delete i (mapItems σ)) (draws σ)) ∧
     mapItems σ = take i (mapItems σ) ++ p :: drop (S i) (mapItems σ) ∧
     delete i (mapItems σ) = take i (mapItems σ) ++ drop (S i) (mapItems σ)).
Proof. apply getItemAtPosition_cases. Qed.

(** With pairwise distinct coordinates in the registry, a lookup keeps
    them distinct, and a second lookup at the same position finds nothing. *)
Theorem getItemAtPosition_twice (x y : Z) (σ : Globals) :
  NoDup (coordinate <$> mapItems σ) →
  ∃ r σ',
    getItemAtPosition x y σ = (Normal r, σ') ∧
    NoDup (coordinate <$> mapItems σ') ∧
    getItemAtPosition x y σ' = (Normal None, σ').
Proof.
  intros Hnd.
  destruct (getItemAtPosition_cases x y σ)
    as [[Hno Hcall]|(i & p & Hp & Hxy & _ & Hcall & Hsplit & Hdel)].
  - exists None, σ. done.
  - eexists _, _. split; [exact Hcall|]. cbn [mapItems].
    rewrite Hsplit, fmap_app, fmap_cons in Hnd.
    apply NoDup_app in Hnd as (Hnd1 & Hdisj & Hnd2).
    apply NoDup_cons in Hnd2 as [Hp2 Hnd2].
    assert (∀ q, q ∈ delete i (mapItems σ) → coordinate q ≠ (x, y)) as Hgone.
    { intros q Hq Hq'. rewrite Hdel in Hq. apply elem_of_app in Hq as [Hq|Hq].
      - apply (Hdisj (coordinate q)); [by apply list_elem_of_fmap_2|].
        rewrite Hq', <- Hxy. by left.
      - apply Hp2. rewrite Hxy, <- Hq'. by apply list_elem_of_fmap_2. }
    split.
    + rewrite Hdel, fmap_app. apply NoDup_app. split; [done|]. split; [|done].
      intros c Hc1 Hc2. apply (Hdisj c Hc1). by right.
    + destruct (getItemAtPosition_cases x y
                  (mkGlobals (delete i (mapItems σ)) (draws σ)))
        as [[_ Hmiss]|(j & q & Hq & Hqxy & _)]; [done|].
      cbn [mapItems] in Hq. destruct (Hgone q); [|done].
      by eapply list_elem_of_lookup_2.
Qed.

Lemma getItemAtPosition_twice_witness :
  ∃ r σ',
    getItemAtPosition 0 0 (mkGlobals [short_sword_at_origin] 0) = (Normal r, σ') ∧
    NoDup (coordinate <$> mapItems σ') ∧
    getItemAtPosition 0 0 σ' = (Normal None, σ').
Proof.
  apply (getItemAtPosition_twice 0 0 (mkGlobals [short_sword_at_origin] 0)).
  apply (bool_decide_unpack _). reflexivity.
Defined.

Section Pickup.

Variable MAP_WIDTH : Z.
Variable rand : nat → Q.

(** The shape of the fallback: nothing for a cell that shows no item
    symbol; for a symbol, one draw (two for "$") and then the catalog
    entry at the drawn index, or a [TypeError] if there is none. *)
Lemma fallback_item_shape (c : option string) (σ : Globals) :
  (¬ is_item_symbol c ∧ fallback_item rand c σ = (Normal None, σ)) ∨
  (∃ s ty k,
     c = Some s ∧ symbol_matches_type s ty ∧
     k = (if decide (s = "$") then 2 else 1)%nat ∧
     let items := getItemsByType (Some ty) in
     (0 < length items)%nat ∧
     fallback_item rand c σ =
       match item_at items (Qfloor (rand (k - 1 + draws σ)%nat
                                    * inject_Z (Z.of_nat (length items)))) with
       | Some it => (Normal (Some it), after_draws k σ)
       | None => (Throw TypeError, after_draws k σ)
       end).
Proof.
  unfold fallback_item. fold (is_item_symbol c).
  case_decide as Hsym; [|by left]. right.
  destruct Hsym as [-> | [-> | ->]].
  - exists "\", "weapon", 1%nat. split; [done|]. split; [left; auto|]. split; [done|].
    split; [simpl; lia|].
    rewrite decide_True by done. mrun. change (getItemsByType (Some "weapon")) with WEAPONS.
      change (length WEAPONS) with 9%nat. change (0 <? Z.of_nat 9) with true. mrun.
    change (1 - 1 + draws σ)%nat with (draws σ). destruct (item_at _ _); reflexivity.
  - exists "&", "armor", 1%nat. split; [done|]. split; [right; left; auto|]. split; [done|].
    split; [simpl; lia|].
    rewrite decide_False by done. rewrite decide_True by done. mrun. change (getItemsByType (Some "armor")) with ARMOR.
      change (length ARMOR) with 10%nat. change (0 <? Z.of_nat 10) with true. mrun.
    change (1 - 1 + draws σ)%nat with (draws σ). destruct (item_at _ _); reflexivity.
  - rewrite decide_False by done. rewrite decide_False by done. mrun.
    destruct (Qlt_le_dec (rand (draws σ)) (1 # 2)).
    + exists "$", "ring", 2%nat. split; [done|]. split; [right; right; auto|].
      split; [done|]. split; [simpl; lia|].
      change (getItemsByType (Some "ring")) with RINGS.
      change (length RINGS) with 8%nat. change (0 <? Z.of_nat 8) with true. mrun.
      change (2 - 1 + draws σ)%nat with (S (draws σ)). destruct (item_at _ _); reflexivity.
    + exists "$", "talisman", 2%nat. split; [done|]. split; [right; right; auto|].
      split; [done|]. split; [simpl; lia|].
      change (getItemsByType (Some "talisman")) with TALISMANS.
      change (length TALISMANS) with 7%nat. change (0 <? Z.of_nat 7) with true. mrun.
      change (2 - 1 + draws σ)%nat with (S (draws σ)). destruct (item_at _ _); reflexivity.
Qed.

(** A pickup that finds nothing changes nothing: with no registry entry at
    the player's coordinate and no item symbol on the player's cell,
    [pickupItem] returns false and the player, the map, the registry and
    the random stream are as before. *)
Theorem pickupItem_nothing_there (pl : Player) (m : JsArray) (σ : Globals) (x y : Z) :
  p_x pl = Some x → p_y pl = Some y →
  invalid_map (Some m) = false →
  (∀ p, p ∈ mapItems σ → coordinate p ≠ (x, y)) →
  ¬ is_item_symbol (array_get m (y * MAP_WIDTH + x)) →
  pickupItem MAP_WIDTH rand (Some pl) (Some m) σ
    = (Normal (false, Some pl, Some m), σ).
Proof.
  intros Hx Hy Hvalid Hno Hcell.
  unfold pickupItem. rewrite Hvalid, Hx, Hy.
  unfold mbind at 1. unfold M_bind at 1.
  destruct (getItemAtPosition_cases x y σ)
    as [[_ ->]|(i & p & Hp & Hxy & _)].
  - unfold mbind at 1. unfold M_bind at 1.
    destruct (fallback_item_shape (array_get m (y * MAP_WIDTH + x)) σ)
      as [[_ ->]|(s & ty & k & Hc & Hm & _)]; [done|].
    destruct Hcell. rewrite Hc. unfold is_item_symbol.
    destruct Hm as [[-> _]|[[-> _]|[-> _]]]; auto.
  - destruct (Hno p); [by eapply list_elem_of_lookup_2|done].
Qed.

(** The registry takes precedence over the grid: when the registry has an
    entry at the player's coordinate, [pickupItem] returns true, appends the
    item of the first such entry to the inventory, removes that entry,
    writes the floor code on the player's cell and draws no random number,
    whatever the cell showed. *)
Theorem pickupItem_takes_first_registry_entry (pl : Player) (m : JsArray)
    (σ : Globals) (i : nat) (p : PlacedItem) (inv : list Item) :
  mapItems σ !! i = Some p →
  (∀ j q, mapItems σ !! j = Some q → (j < i)%nat → coordinate q ≠ coordinate p) →
  p_x pl = Some (mi_x p) → p_y pl = Some (mi_y p) → inventory pl = Some inv →
  invalid_map (Some m) = false →
  pickupItem MAP_WIDTH rand (Some pl) (Some m) σ
    = (Normal (true,
               Some (mkPlayer (p_x pl) (p_y pl) (Some (inv ++ [mi_item p])) (equipment pl)),
               Some (array_set m (entry_index MAP_WIDTH p) ".")),
       mkGlobals (delete i (mapItems σ)) (draws σ)).
Proof.
  intros Hp Hfirst Hx Hy Hinv Hvalid.
  unfold pickupItem. rewrite Hvalid, Hx, Hy.
  unfold mbind at 1. unfold M_bind at 1.
  rewrite (getItemAtPosition_first σ i p Hp Hfirst).
  unfold addToInventory. rewrite Hinv. mrun. rewrite ?Hx, ?Hy. reflexivity.
Qed.

(** What a pickup can touch.  Whenever [pickupItem] returns, the player's
    position and equipment are as before and the map differs from the old
    one at most on the player's cell.  If it returns false, the player, the
    map and the global state are unchanged; if it returns true, the
    inventory has grown by exactly one item at its end, the player's cell
    holds the floor code and the registry has lost at most one entry. *)
Theorem pickupItem_frame (pl : Player) (m : JsArray) (σ σ' : Globals)
    (b : bool) (pl' : option Player) (m' : option JsArray) :
  pickupItem MAP_WIDTH rand (Some pl) (Some m) σ = (Normal (b, pl', m'), σ') →
  ∃ pl2 m2,
    pl' = Some pl2 ∧ m' = Some m2 ∧
    p_x pl2 = p_x pl ∧ p_y pl2 = p_y pl ∧ equipment pl2 = equipment pl ∧
    (b = false → pl2 = pl ∧ m2 = m ∧ σ' = σ) ∧
    (b = true →
       ∃ x y inv it,
         p_x pl = Some x ∧ p_y pl = Some y ∧
         inventory pl = Some inv ∧ inventory pl2 = Some (inv ++ [it]) ∧
         array_get m2 (y * MAP_WIDTH + x) = Some "." ∧
         (∀ j, j ≠ y * MAP_WIDTH + x → array_get m2 j = array_get m j) ∧
         (length (mapItems σ') ≤ length (mapItems σ) ≤ S (length (mapItems σ')))%nat).
Proof.
  unfold pickupItem. destruct (invalid_map (Some m)) eqn:Hvalid.
  { intros [= <- <- <- <-]. exists pl, m. repeat split; auto; discriminate. }
  destruct (p_x pl) as [x|] eqn:Hx; [destruct (p_y pl) as [y|] eqn:Hy|].
  2,3: intros [= <- <- <- <-]; exists pl, m; repeat split; auto; discriminate.
  unfold mbind at 1. unfold M_bind at 1.
  assert (∀ (it : Item) (σ1 : Globals),
            (length (mapItems σ1) ≤ length (mapItems σ) ≤ S (length (mapItems σ1)))%nat →
            (pl' ← lift (addToInventory pl it);
             mret (true, Some pl', Some (array_set m (y * MAP_WIDTH + x) "."))) σ1
              = (Normal (b, pl', m'), σ') →
            ∃ pl2 m2,
              pl' = Some pl2 ∧ m' = Some m2 ∧
              p_x pl2 = Some x ∧ p_y pl2 = Some y ∧ equipment pl2 = equipment pl ∧
              (b = false → pl2 = pl ∧ m2 = m ∧ σ' = σ) ∧
              (b = true →
                 ∃ x0 y0 inv it0,
                   Some x = Some x0 ∧ Some y = Some y0 ∧
                   inventory pl = Some inv ∧ inventory pl2 = Some (inv ++ [it0]) ∧
                   array_get m2 (y0 * MAP_WIDTH + x0) = Some "." ∧
                   (∀ j, j ≠ y0 * MAP_WIDTH + x0 → array_get m2 j = array_get m j) ∧
                   (length (mapItems σ') ≤ length (mapItems σ) ≤ S (length (mapItems σ')))%nat))
    as Hadd.
  { intros it σ1 Hlen. unfold addToInventory.
    destruct (inventory pl) as [inv|] eqn:Hinv; mrun; [|discriminate].
    intros [= <- <- <- <-]. eexists _, _. split; [reflexivity|]. split; [reflexivity|].
    cbn [p_x p_y equipment inventory]. repeat split; auto; try discriminate.
    intros _. exists x, y, inv, it. repeat split; auto; try lia.
    - apply array_get_set_eq.
    - intros j Hj. by apply array_get_set_ne. }
  destruct (getItemAtPosition_cases x y σ)
    as [[_ ->]|(i & p & Hp & _ & _ & -> & Hsplit & Hdel)].
  - unfold mbind at 1. unfold M_bind at 1.
    destruct (fallback_item_shape (array_get m (y * MAP_WIDTH + x)) σ)
      as [[_ ->]|(s & ty & k & _ & _ & _ & _ & ->)].
    + intros [= <- <- <- <-]. exists pl, m. rewrite Hx, Hy.
      repeat split; auto; discriminate.
    + destruct (item_at _ _) as [it|]; [|discriminate].
      apply Hadd. cbn [after_draws mapItems]. lia.
  - apply Hadd. cbn [mapItems]. rewrite Hdel.
    rewrite Hsplit at 3 4. rewrite !length_app. simpl. lia.
Qed.

Hypothesis rand_unit : ∀ n, (0 <= rand n)%Q ∧ (rand n < 1)%Q.

(** The fallback for every item symbol.  When the player's cell shows an
    item symbol and the registry has no entry at the player's coordinate,
    [pickupItem] returns true and appends a catalog item whose type goes
    with the symbol (weapon for "\", armor for "&", ring or talisman for
    "$"); the cell is reset to the floor code, the registry is untouched,
    and one random number is drawn, or two for "$". *)
Theorem pickupItem_synthesizes_by_symbol (pl : Player) (m : JsArray) (σ : Globals)
    (x y : Z) (inv : list Item) :
  p_x pl = Some x → p_y pl = Some y → inventory pl = Some inv →
  invalid_map (Some m) = false →
  is_item_symbol (array_get m (y * MAP_WIDTH + x)) →
  (∀ p, p ∈ mapItems σ → coordinate p ≠ (x, y)) →
  ∃ s it k,
    array_get m (y * MAP_WIDTH + x) = Some s ∧
    symbol_matches_type s (it_type it) ∧
    it ∈ getItemsByType (Some (it_type it)) ∧
    (k = if decide (s = "$") then 2%nat else 1%nat) ∧
    pickupItem MAP_WIDTH rand (Some pl) (Some m) σ
      = (Normal (true,
                 Some (mkPlayer (p_x pl) (p_y pl) (Some (inv ++ [it])) (equipment pl)),
                 Some (array_set m (y * MAP_WIDTH + x) ".")),
         after_draws k σ).
Proof.
  intros Hx Hy Hinv Hvalid Hsym Hno.
  destruct (fallback_item_shape (array_get m (y * MAP_WIDTH + x)) σ)
    as [[Hns _]|(s & ty & k & Hc & Hmatch & Hk & Hpos & Hfb)]; [done|].
  cbv zeta in Hpos, Hfb.
  destruct (item_at_in_range (getItemsByType (Some ty))
              (Qfloor (rand (k - 1 + draws σ)%nat
                       * inject_Z (Z.of_nat (length (getItemsByType (Some ty)))))))
    as (it & Hit & Hin).
  { apply Qfloor_scaled_range; [apply rand_unit..|lia]. }
  rewrite Hit in Hfb.
  assert (it_type it = ty) as Hty.
  { destruct (getItemsByType_member ty it Hin) as [-> _].
    destruct Hmatch as [[_ ->]|[[_ ->]|[_ [->| ->]]]]; reflexivity. }
  exists s, it, k. split; [done|]. rewrite Hty. split; [done|]. split; [done|].
  split; [done|].
  unfold pickupItem. rewrite Hvalid, Hx, Hy.
  unfold mbind at 1. unfold M_bind at 1.
  destruct (getItemAtPosition_cases x y σ)
    as [[_ ->]|(i & p & Hp & Hxy & _)].
  2: { destruct (Hno p); [by eapply list_elem_of_lookup_2|done]. }
  unfold mbind at 1. unfold M_bind at 1. rewrite Hfb.
  unfold addToInventory. rewrite Hinv. mrun. rewrite ?Hx, ?Hy. reflexivity.
Qed.

End Pickup.

(** ** Equipping: what changes and when *)

(** Equipping does not consume: the inventory and the position of the
    player are the same after [autoEquipItem], whether it succeeds or not. *)
Theorem autoEquipItem_keeps_inventory (player : Player) (item : option Item) :
  inventory (autoEquipItem player item).2 = inventory player ∧
  p_x (autoEquipItem player item).2 = p_x player ∧
  p_y (autoEquipItem player item).2 = p_y player.
Proof.
  destruct item as [it|]; simpl; [|done].
  repeat case_decide; repeat case_match; done.
Qed.

Lemma fill_first_empty_spec (item : Item) (slots : list (option Item)) :
  (Forall is_Some slots ∧ fill_first_empty item slots = None) ∨
  (∃ i, slots !! i = Some None ∧
        (∀ j, (j < i)%nat → ∃ o, slots !! j = Some (Some o)) ∧
        fill_first_empty item slots = Some (<[i := Some item]> slots)).
Proof.
  induction slots as [|[other|] rest IH]; simpl.
  - left. done.
  - destruct IH as [[Hfull ->]|(i & Hi & Hbefore & ->)].
    + left. split; [|done]. constructor; [by eexists|done].
    + right. exists (S i). split; [done|]. split; [|done].
      intros [|j] Hj; [by eexists|]. simpl. apply Hbefore. lia.
  - right. exists 0%nat. split; [done|]. split; [|done]. intros j Hj. lia.
Qed.

(** When [autoEquipItem] accepts.  It returns true exactly when the item
    is a weapon and a hand is empty, or an armor that names a slot which is
    empty, or a ring and some ring entry is empty, or a talisman and some
    talisman entry is empty; a null item and any other type are refused. *)
Theorem autoEquipItem_accepts_iff (player : Player) (item : option Item) :
  let e := equipment player in
  (autoEquipItem player item).1 = true ↔
  ∃ it, item = Some it ∧
    ((it_type it = "weapon" ∧ (rightHand e = [] ∨ leftHand e = [])) ∨
     (it_type it = "armor" ∧ ∃ s, it_slot it = Some s ∧ armor_in e s = None) ∨
     (it_type it = "ring" ∧ None ∈ rings e) ∨
     (it_type it = "talisman" ∧ None ∈ talismans e)).
Proof.
  intros e. destruct item as [it|]; simpl; [|split; [done|intros (? & ? & _); done]].
  fold e.
  assert (∀ slots, is_Some (fill_first_empty it slots) ↔ None ∈ slots) as Hfill.
  { intros slots. destruct (fill_first_empty_spec it slots)
      as [[Hfull ->]|(i & Hi & _ & ->)].
    - split; [by intros [? ?]|]. intros Hin. rewrite Forall_forall in Hfull.
      by destruct (Hfull None Hin).
    - split; [|by eexists]. intros _. by eapply list_elem_of_lookup_2. }
  repeat case_decide.
  - destruct (rightHand e) as [|r rs]; simpl.
    { split; [|done]. intros _. exists it. split; [done|]. left. auto. }
    destruct (leftHand e) as [|l ls]; simpl.
    { split; [|done]. intros _. exists it. split; [done|]. left. auto. }
    split; [done|]. intros (? & [= <-] & [[_ [?|?]]|[[? _]|[[? _]|[? _]]]]); congruence.
  - destruct (it_slot it) as [s|] eqn:Hs.
    + destruct (armor_in e s) eqn:Ha; simpl.
      * split; [done|].
        intros (? & [= <-] & [[? _]|[(_ & s' & ? & ?)|[[? _]|[? _]]]]); congruence.
      * split; [|done]. intros _. exists it. split; [done|]. right. left. eauto.
    + simpl. split; [done|].
      intros (? & [= <-] & [[? _]|[(_ & s' & ? & ?)|[[? _]|[? _]]]]); congruence.
  - destruct (Hfill (rings e)) as [Hsome Hnone].
    destruct (fill_first_empty it (rings e)); simpl.
    + split; [|done]. intros _. exists it. split; [done|]. right. right. left.
      split; [done|]. apply Hsome. by eexists.
    + split; [done|].
      intros (? & [= <-] & [[? _]|[[? _]|[[_ Hin]|[? _]]]]); try congruence.
      by destruct (Hnone Hin).
  - destruct (Hfill (talismans e)) as [Hsome Hnone].
    destruct (fill_first_empty it (talismans e)); simpl.
    + split; [|done]. intros _. exists it. split; [done|]. right. right. right.
      split; [done|]. apply Hsome. by eexists.
    + split; [done|].
      intros (? & [= <-] & [[? _]|[[? _]|[[? _]|[_ Hin]]]]); try congruence.
      by destruct (Hnone Hin).
  - simpl. split; [done|].
    intros (? & [= <-] & [[? _]|[[? _]|[[? _]|[? _]]]]); congruence.
Qed.

(** Equipping an armor whose slot is empty: the call returns true, that
    slot then holds the armor, and the other armor slots, the hands, the
    rings and the talismans are as before. *)
Theorem autoEquipItem_armor_fills_slot (player : Player) (it : Item) (s : ArmorSlot) :
  it_type it = "armor" → it_slot it = Some s →
  armor_in (equipment player) s = None →
  let e := equipment player in
  let e' := equipment (autoEquipItem player (Some it)).2 in
  (autoEquipItem player (Some it)).1 = true ∧
  armor_in e' s = Some it ∧
  (∀ s', s' ≠ s → armor_in e' s' = armor_in e s') ∧
  rightHand e' = rightHand e ∧ leftHand e' = leftHand e ∧
  rings e' = rings e ∧ talismans e' = talismans e.
Proof.
  intros Ht Hs Hfree e e'. subst e e'. unfold autoEquipItem.
  rewrite Ht, Hs, Hfree. simpl.
  split; [done|]. destruct s; simpl; repeat split; auto;
    intros []; simpl; congruence.
Qed.

(** Equipping a ring or a talisman when an entry is free: the call
    returns true; the first empty entry of the matching array receives the
    item, every other entry of that array keeps its content, the array
    keeps its length, and the remaining slots are as before. *)
Theorem autoEquipItem_trinket_fills_first_empty (player : Player) (it : Item)
    (i : nat) :
  let e := equipment player in
  let slots := if decide (it_type it = "ring") then rings e else talismans e in
  it_type it = "ring" ∨ it_type it = "talisman" →
  slots !! i = Some None →
  (∀ j, (j < i)%nat → ∃ o, slots !! j = Some (Some o)) →
  let e' := equipment (autoEquipItem player (Some it)).2 in
  let slots' := if decide (it_type it = "ring") then rings e' else talismans e' in
  (autoEquipItem player (Some it)).1 = true ∧
  slots' = <[i := Some it]> slots ∧
  slots' !! i = Some (Some it) ∧
  length slots' = length slots ∧
  (if decide (it_type it = "ring") then talismans e' = talismans e
   else rings e' = rings e) ∧
  rightHand e' = rightHand e ∧ leftHand e' = leftHand e ∧
  (∀ s, armor_in e' s = armor_in e s).
Proof.
  intros e slots Hty Hi Hbefore.
  assert (fill_first_empty it slots = Some (<[i := Some it]> slots)) as Hfill.
  { destruct (fill_first_empty_spec it slots) as [[Hfull _]|(k & Hk & Hkb & ->)].
    - rewrite Forall_forall in Hfull.
      destruct (Hfull None); [by eapply list_elem_of_lookup_2|done].
    - destruct (Nat.lt_trichotomy k i) as [Hlt|[->|Hlt]]; [|done|].
      + destruct (Hbefore k Hlt) as [o Ho]. congruence.
      + destruct (Hkb i Hlt) as [o Ho]. congruence. }
  assert (<[i := Some it]> slots !! i = Some (Some it)) as Hget.
  { apply list_lookup_insert_eq. by eapply lookup_lt_Some. }
  subst slots. unfold autoEquipItem. fold e.
  destruct Hty as [Ht|Ht]; rewrite Ht in *; simpl in *; rewrite Hfill; simpl;
    repeat split; auto; try apply length_insert; by intros [].
Qed.

Lemma autoEquipItem_armor_fills_slot_witness :
  let e := equipment explorer in
  let e' := equipment (autoEquipItem explorer (Some IronHelmet)).2 in
  (autoEquipItem explorer (Some IronHelmet)).1 = true ∧
  armor_in e' Head = Some IronHelmet ∧
  (∀ s', s' ≠ Head → armor_in e' s' = armor_in e s') ∧
  rightHand e' = rightHand e ∧ leftHand e' = leftHand e ∧
  rings e' = rings e ∧ talismans e' = talismans e.
Proof.
  apply (autoEquipItem_armor_fills_slot explorer IronHelmet Head); reflexivity.
Defined.

Lemma autoEquipItem_trinket_fills_first_empty_witness :
  let it := Ring "ring_luck" "Fortune's Favor" 180 "rare" in
  let e := equipment explorer in
  let e' := equipment (autoEquipItem explorer (Some it)).2 in
  (autoEquipItem explorer (Some it)).1 = true ∧
  rings e' = <[0%nat := Some it]> (rings e) ∧
  rings e' !! 0%nat = Some (Some it) ∧
  length (rings e') = length (rings e) ∧
  talismans e' = talismans e ∧
  rightHand e' = rightHand e ∧ leftHand e' = leftHand e ∧
  (∀ s, armor_in e' s = armor_in e s).
Proof.
  apply (autoEquipItem_trinket_fills_first_empty explorer
           (Ring "ring_luck" "Fortune's Favor" 180 "rare") 0);
    [by left | reflexivity |].
  intros j Hj. lia.
Defined.

(** ** Rendering the inventory *)






(** ** More on the placement loop *)

Section HostExtras.

Variables MAP_WIDTH MAP_HEIGHT : Z.
Variable rand : nat → Q.
Hypothesis rand_unit : ∀ n, (0 <= rand n)%Q ∧ (rand n < 1)%Q.
Hypothesis width_pos : 0 < MAP_WIDTH.
Hypothesis height_pos : 0 < MAP_HEIGHT.

Lemma roll_item_type_symbol (σ : Globals) :
  ∃ ty sym k,
    roll_item_type rand σ = (Normal (ty, sym), after_draws k σ) ∧
    symbol_matches_type sym ty ∧ recognised_type ty ∧ (1 ≤ k ≤ 2)%nat.
Proof.
  unfold roll_item_type, symbol_matches_type, recognised_type. mrun.
  destruct (Qlt_le_dec (rand (draws σ)) (4 # 10)).
  { exists "weapon", "\", 1%nat. repeat split; auto. }
  destruct (Qlt_le_dec (rand (draws σ)) (7 # 10)).
  { exists "armor", "&", 1%nat. repeat split; auto. }
  mrun. destruct (Qlt_le_dec _ (1 # 2)).
  { exists "ring", "$", 2%nat. repeat split; auto 6. }
  exists "talisman", "$", 2%nat. repeat split; auto 6.
Qed.

(** One attempt in full: the two coordinate draws decide; off the floor
    nothing but the draw counter changes, on the floor one well-formed
    entry is appended at the drawn coordinate. *)
Lemma place_attempt_cases (m : JsArray) (placedItems : Z) (σ : Globals) :
  let x := Qfloor (rand (draws σ) * inject_Z MAP_WIDTH) in
  let y := Qfloor (rand (S (draws σ)) * inject_Z MAP_HEIGHT) in
  0 ≤ x < MAP_WIDTH ∧ 0 ≤ y < MAP_HEIGHT ∧
  ((array_get m (y * MAP_WIDTH + x) ≠ Some "." ∧
    place_attempt MAP_WIDTH MAP_HEIGHT rand m placedItems σ
      = (Normal placedItems, after_draws 2 σ)) ∨
   (array_get m (y * MAP_WIDTH + x) = Some "." ∧
    ∃ it sym k,
      place_attempt MAP_WIDTH MAP_HEIGHT rand m placedItems σ
        = (Normal (placedItems + 1),
           mkGlobals (mapItems σ ++ [mkPlaced x y it sym]) (k + draws σ)) ∧
      entry_well_formed MAP_WIDTH MAP_HEIGHT (mkPlaced x y it sym) ∧
      (4 ≤ k ≤ 5)%nat)).
Proof.
  intros x y.
  assert (0 ≤ x < MAP_WIDTH) as Hx
    by (apply Qfloor_scaled_range; [apply rand_unit..|done]).
  assert (0 ≤ y < MAP_HEIGHT) as Hy
    by (apply Qfloor_scaled_range; [apply rand_unit..|done]).
  split; [done|]. split; [done|].
  unfold place_attempt. mrun. fold x y.
  case_decide as Hfloor; [right|left; done].
  split; [done|].
  set (σ2 := mkGlobals (mapItems σ) (S (S (draws σ)))).
  destruct (roll_item_type_symbol σ2) as (ty & sym & k & -> & Hsym & Hty & Hk).
  destruct (catalog_selection rand rand_unit ty (draws (after_draws k σ2)) Hty)
    as [Hpos (it & Hit & Hin)].
  rewrite Hpos. mrun. cbn [draws after_draws] in *. rewrite Hit. mrun.
  exists it, sym, (S (k + 2)).
  assert (it_type it = ty) as Htype.
  { destruct (getItemsByType_member ty it Hin) as [-> _].
    destruct Hty as [-> | [-> | [-> | ->]]]; reflexivity. }
  split; [|split; [|lia]].
  - do 2 f_equal. subst σ2. cbn [mapItems draws]. f_equal. lia.
  - unfold entry_well_formed. cbn [mi_x mi_y mi_item mi_symbol].
    rewrite Htype. done.
Qed.

Lemma distribute_loop_entries (m : JsArray) (itemCount maxAttempts : Z) (fuel : nat) :
  ∀ (placedItems attempts : Z) (σ σ' : Globals) (r : Z * Z),
    distribute_loop MAP_WIDTH MAP_HEIGHT rand fuel m itemCount maxAttempts
      placedItems attempts σ = (Normal r, σ') →
    ∃ new, mapItems σ' = mapItems σ ++ new ∧
           Forall (entry_well_formed MAP_WIDTH MAP_HEIGHT) new.
Proof.
  induction fuel as [|fuel IH]; intros placedItems attempts σ σ' r; simpl.
  - destruct (_ && _); [discriminate|]. intros [= <- <-].
    exists []. by rewrite app_nil_r.
  - destruct (_ && _).
    2: { intros [= <- <-]. exists []. by rewrite app_nil_r. }
    unfold mbind, M_bind.
    destruct (place_attempt_cases m placedItems σ)
      as (_ & _ & [[_ ->]|(_ & it & sym & k & -> & Hwf & _)]).
    + intros Hloop. apply IH in Hloop as (new & Hnew & Hall).
      exists new. done.
    + intros Hloop. apply IH in Hloop as (new & Hnew & Hall).
      cbn [mapItems] in Hnew. eexists (_ :: new).
      rewrite Hnew, <- app_assoc. split; [reflexivity|]. by constructor.
Qed.

Lemma distributeItems_entries_spec (fuel : nat) (m : JsArray) (σ : Globals) :
  (400 ≤ fuel)%nat → invalid_map (Some m) = false →
  ∃ l σ',
    distributeItems MAP_WIDTH MAP_HEIGHT rand fuel (Some m) σ = (Normal l, σ') ∧
    mapItems σ' = l ∧
    Forall (entry_well_formed MAP_WIDTH MAP_HEIGHT) l ∧
    Forall (on_floor MAP_WIDTH m) l ∧
    Forall (fun p => is_item_symbol (Some (mi_symbol p))) l.
Proof.
  intros Hfuel Hvalid.
  destruct (distributeItems_valid_spec MAP_WIDTH MAP_HEIGHT rand rand_unit fuel m σ
              width_pos height_pos Hfuel Hvalid)
    as (log & σ' & Hrun & Hcall & _ & _ & _ & _ & _ & Hfl).
  exists (mapItems σ'), σ'. split; [done|]. split; [done|].
  assert (Forall (entry_well_formed MAP_WIDTH MAP_HEIGHT) (mapItems σ')) as Hwf.
  { revert Hrun. unfold distribute_run. mrun.
    destruct (distribute_loop _ _ _ _ _ _ _ _ _ _) as [[pa|e|] σ1] eqn:Hloop;
      try discriminate.
    destruct pa as [p a]. intros [= _ <-].
    apply distribute_loop_entries in Hloop as (new & -> & Hall). done. }
  split; [done|]. split; [done|].
  eapply Forall_impl; [exact Hwf|].
  intros p (_ & _ & _ & Hsym). unfold is_item_symbol.
  destruct Hsym as [[-> _]|[[-> _]|[-> _]]]; auto.
Qed.

(** The entries that [distributeItems] registers on a valid map: each
    lies inside the grid, on a tile of the map that holds the floor code,
    carries an item of the catalog of its type, and has the symbol of that
    type ("\" weapon, "&" armor, "$" ring or talisman). *)
Theorem distributeItems_entries_well_formed (fuel : nat) (m : JsArray) (σ : Globals) :
  (400 ≤ fuel)%nat → invalid_map (Some m) = false →
  ∃ l σ',
    distributeItems MAP_WIDTH MAP_HEIGHT rand fuel (Some m) σ = (Normal l, σ') ∧
    mapItems σ' = l ∧
    Forall (entry_well_formed MAP_WIDTH MAP_HEIGHT) l ∧
    Forall (on_floor MAP_WIDTH m) l ∧
    Forall (fun p => is_item_symbol (Some (mi_symbol p))) l.
Proof. apply distributeItems_entries_spec. Qed.

Lemma distribute_loop_all_floor (m : JsArray) (itemCount maxAttempts : Z) (fuel : nat) :
  all_floor MAP_WIDTH MAP_HEIGHT m →
  ∀ (placedItems attempts : Z) (σ : Globals),
    placedItems ≤ itemCount →
    attempts + (itemCount - placedItems) ≤ maxAttempts →
    (Z.to_nat (itemCount - placedItems) ≤ fuel)%nat →
    ∃ σ',
      distribute_loop MAP_WIDTH MAP_HEIGHT rand fuel m itemCount maxAttempts
        placedItems attempts σ
      = (Normal (itemCount, attempts + (itemCount - placedItems)), σ').
Proof.
  intros Hfloor.
  induction fuel as [|fuel IH]; intros placedItems attempts σ Hle Hbudget Hfuel; simpl.
  - assert (placedItems = itemCount) as -> by lia.
    rewrite Z.ltb_irrefl. simpl. exists σ. by rewrite Z.sub_diag, Z.add_0_r.
  - destruct (Z.ltb_spec placedItems itemCount) as [Hlt|Hge]; simpl.
    + destruct (Z.ltb_spec attempts maxAttempts) as [_|?]; [|lia].
      unfold mbind, M_bind.
      destruct (place_attempt_cases m placedItems σ)
        as (Hx & Hy & [[Hnf _]|(_ & it & sym & k & -> & _)]).
      { destruct Hnf. by apply Hfloor. }
      destruct (IH (placedItems + 1) (attempts + 1)
                  (mkGlobals (mapItems σ ++ [mkPlaced
                     (Qfloor (rand (draws σ) * inject_Z MAP_WIDTH))
                     (Qfloor (rand (S (draws σ)) * inject_Z MAP_HEIGHT)) it sym])
                     (k + draws σ))) as [σ' ->]; [lia..|].
      exists σ'. do 3 f_equal. lia.
    + assert (placedItems = itemCount) as -> by lia.
      exists σ. by rewrite Z.sub_diag, Z.add_0_r.
Qed.

(** No under-delivery on open ground: when every cell of the grid holds
    the floor code, every attempt places an item, so [distributeItems]
    makes exactly as many attempts as the target count and returns exactly
    that many entries. *)
Theorem distributeItems_all_floor_meets_target (fuel : nat) (m : JsArray) (σ : Globals) :
  (400 ≤ fuel)%nat → invalid_map (Some m) = false →
  all_floor MAP_WIDTH MAP_HEIGHT m →
  ∃ log σ',
    distribute_run MAP_WIDTH MAP_HEIGHT rand fuel m (mkGlobals [] (draws σ))
      = (Normal log, σ') ∧
    distributeItems MAP_WIDTH MAP_HEIGHT rand fuel (Some m) σ
      = (Normal (mapItems σ'), σ') ∧
    log_placedItems log = log_itemCount log ∧
    log_attempts log = log_itemCount log ∧
    Z.of_nat (length (mapItems σ')) = log_itemCount log.
Proof.
  intros Hfuel Hvalid Hfloor.
  destruct (distributeItems_valid_spec MAP_WIDTH MAP_HEIGHT rand rand_unit fuel m σ
              width_pos height_pos Hfuel Hvalid)
    as (log & σ' & Hrun & Hcall & Hic & Hrange & _ & Hlen & _ & _).
  exists log, σ'. split; [done|]. split; [done|].
  enough (log_placedItems log = log_itemCount log ∧
          log_attempts log = log_itemCount log) as [Hp Ha].
  { split; [done|]. split; [done|]. by rewrite <- Hlen. }
  revert Hrun. unfold distribute_run. mrun. rewrite <- Hic.
  unfold maxItems in Hrange.
  destruct (distribute_loop_all_floor m (log_itemCount log) (log_itemCount log * 10)
              fuel Hfloor 0 0 (mkGlobals [] (S (draws σ)))) as [σ1 ->]; [lia..|].
  intros [= <- _]. cbn [log_placedItems log_attempts log_itemCount]. lia.
Qed.

End HostExtras.

(** ** Resetting a level *)

Lemma clear_symbol_other (m : JsArray) (i j : Z) :
  i ≠ j → array_get (clear_symbol m i) j = array_get m j.
Proof.
  intros Hne. unfold clear_symbol. case_decide; [|done]. by apply array_get_set_ne.
Qed.

Lemma clear_symbols_plain (l : list Z) (m : JsArray) (j : Z) :
  ¬ is_item_symbol (array_get m j) →
  array_get (foldl clear_symbol m l) j = array_get m j.
Proof.
  revert m. induction l as [|i l IH]; intros m Hns; simpl; [done|].
  assert (array_get (clear_symbol m i) j = array_get m j) as Hstep.
  { destruct (decide (i = j)) as [->|Hne]; [|by apply clear_symbol_other].
    unfold clear_symbol. by rewrite decide_False. }
  rewrite IH; rewrite Hstep; done.
Qed.

Lemma clear_symbols_skipped (l : list Z) (m : JsArray) (j : Z) :
  j ∉ l → array_get (foldl clear_symbol m l) j = array_get m j.
Proof.
  revert m. induction l as [|i l IH]; intros m Hni; simpl; [done|].
  apply not_elem_of_cons in Hni as [Hne Hni].
  rewrite IH by done. by apply clear_symbol_other.
Qed.

Lemma clear_symbols_hit (l : list Z) (m : JsArray) (j : Z) :
  j ∈ l → is_item_symbol (array_get m j) →
  array_get (foldl clear_symbol m l) j = Some ".".
Proof.
  revert m. induction l as [|i l IH]; intros m Hin Hsym; [by apply elem_of_nil in Hin|].
  simpl. destruct (decide (i = j)) as [->|Hne].
  - rewrite clear_symbols_plain.
    + unfold clear_symbol. rewrite decide_True by done. apply array_get_set_eq.
    + unfold clear_symbol. rewrite decide_True by done. rewrite array_get_set_eq.
      unfold is_item_symbol. intros [?|[?|?]]; discriminate.
  - apply elem_of_cons in Hin as [?|Hin]; [congruence|].
    apply IH; [done|]. by rewrite clear_symbol_other.
Qed.

Lemma clear_symbols_valid (l : list Z) (m : JsArray) :
  invalid_map (Some m) = false → invalid_map (Some (foldl clear_symbol m l)) = false.
Proof.
  revert m. induction l as [|i l IH]; intros m H; simpl; [done|].
  apply IH. unfold clear_symbol. case_decide; [|done]. by apply array_set_valid.
Qed.

(** The clearing pass of a reset: inside the array every item symbol
    becomes the floor code and every other tile keeps its content; keys
    outside [0, length) are not visited. *)
Lemma clear_item_symbols_spec (m : JsArray) (j : Z) :
  array_get (clear_item_symbols m) j =
    if decide (0 ≤ j < Z.of_nat (arr_length m) ∧ is_item_symbol (array_get m j))
    then Some "." else array_get m j.
Proof.
  unfold clear_item_symbols. case_decide as H.
  - destruct H as [Hj Hsym]. apply clear_symbols_hit; [|done].
    apply elem_of_seqZ. lia.
  - destruct (decide (is_item_symbol (array_get m j))) as [Hsym|Hns].
    + apply clear_symbols_skipped. rewrite elem_of_seqZ. intros ?. apply H. split; [lia|done].
    + by apply clear_symbols_plain.
Qed.

(** When a reset does nothing.  On an absent or empty map, and on a valid
    map while the registry is non-empty and [force] is false,
    [resetAndDistributeItems] changes neither the map nor the registry and
    draws no random number. *)
Theorem resetAndDistributeItems_keeps (MAP_WIDTH MAP_HEIGHT : Z) (rand : nat → Q)
    (fuel : nat) (map : option JsArray) (force : bool) (σ : Globals) :
  invalid_map map = true ∨ (mapItems σ ≠ [] ∧ force = false) →
  resetAndDistributeItems MAP_WIDTH MAP_HEIGHT rand fuel map force σ
    = (Normal map, σ).
Proof.
  intros H. unfold resetAndDistributeItems. destruct map as [m|]; [|done].
  destruct (invalid_map (Some m)) eqn:Hvalid; [done|].
  destruct H as [?|[Hne ->]]; [done|]. mrun.
  destruct (mapItems σ); [done|]. reflexivity.
Qed.

Lemma resetAndDistributeItems_keeps_witness :
  resetAndDistributeItems 4 1 (constant_draws 0) 400 (Some four_tile_map) false
      (mkGlobals [short_sword_at_origin] 3)
    = (Normal (Some four_tile_map), mkGlobals [short_sword_at_origin] 3).
Proof.
  apply (resetAndDistributeItems_keeps 4 1 (constant_draws 0) 400
           (Some four_tile_map) false (mkGlobals [short_sword_at_origin] 3)).
  right. split; [discriminate|reflexivity].
Defined.

Section HostReset.

Variables MAP_WIDTH MAP_HEIGHT : Z.
Variable rand : nat → Q.
Hypothesis rand_unit : ∀ n, (0 <= rand n)%Q ∧ (rand n < 1)%Q.
Hypothesis width_pos : 0 < MAP_WIDTH.
Hypothesis height_pos : 0 < MAP_HEIGHT.

(** After a reset that redistributes (empty registry, or [force]), map and
    registry agree.  The call returns; inside the array, a tile that shows
    an item symbol has a registry entry at its index with that symbol;
    every registry entry lies on a tile that shows an item symbol; old item
    symbols without a new entry are floor again; and a tile that held
    neither the floor code nor an item symbol keeps its content. *)
Theorem resetAndDistributeItems_synchronises (fuel : nat) (m : JsArray)
    (force : bool) (σ : Globals) :
  (400 ≤ fuel)%nat → invalid_map (Some m) = false →
  mapItems σ = [] ∨ force = true →
  ∃ m' σ',
    resetAndDistributeItems MAP_WIDTH MAP_HEIGHT rand fuel (Some m) force σ
      = (Normal (Some m'), σ') ∧
    Forall (entry_well_formed MAP_WIDTH MAP_HEIGHT) (mapItems σ') ∧
    (∀ j, 0 ≤ j < Z.of_nat (arr_length m) → is_item_symbol (array_get m' j) →
          ∃ p, p ∈ mapItems σ' ∧ entry_index MAP_WIDTH p = j ∧
               array_get m' j = Some (mi_symbol p)) ∧
    (∀ p, p ∈ mapItems σ' →
          is_item_symbol (array_get m' (entry_index MAP_WIDTH p))) ∧
    (∀ j, 0 ≤ j < Z.of_nat (arr_length m) → is_item_symbol (array_get m j) →
          (∀ p, p ∈ mapItems σ' → entry_index MAP_WIDTH p ≠ j) →
          array_get m' j = Some ".") ∧
    (∀ j, array_get m j ≠ Some "." → ¬ is_item_symbol (array_get m j) →
          array_get m' j = array_get m j).
Proof.
  intros Hfuel Hvalid Hredo.
  set (cleared := clear_item_symbols m).
  assert (invalid_map (Some cleared) = false) as Hcv
    by (by apply clear_symbols_valid).
  destruct (distributeItems_entries_spec MAP_WIDTH MAP_HEIGHT rand rand_unit
              width_pos height_pos fuel cleared (mkGlobals [] (draws σ)) Hfuel Hcv)
    as (l & σ' & Hcall & Hreg & Hwf & Hfl & Hsyms).
  exists (foldl (place_symbol MAP_WIDTH) cleared (mapItems σ')), σ'.
  assert (Forall (fun q => mi_symbol q ≠ ".") (mapItems σ')) as Hnodot.
  { rewrite Hreg. eapply Forall_impl; [exact Hsyms|].
    intros p Hs Hdot. cbv beta in Hs. rewrite Hdot in Hs. destruct Hs as [?|[?|?]]; discriminate. }
  split.
  { unfold resetAndDistributeItems. rewrite Hvalid. mrun.
    assert (Nat.eqb (length (mapItems σ)) 0 || force = true) as ->.
    { destruct Hredo as [->| ->]; [done|]. by rewrite orb_true_r. }
    fold cleared. rewrite Hcall. reflexivity. }
  split; [by rewrite Hreg|]. split; [|split; [|split]].
  - intros j Hj Hsym.
    destruct (projection_cases MAP_WIDTH (mapItems σ') cleared j) as [Hsame|H]; [|exact H].
    rewrite Hsame in Hsym. unfold cleared in Hsym.
    rewrite clear_item_symbols_spec in Hsym. case_decide as Hd.
    + destruct Hsym as [?|[?|?]]; discriminate.
    + destruct Hd. done.
  - intros p Hp.
    pose proof (projection_covers MAP_WIDTH (mapItems σ') cleared p Hnodot Hp) as Hnf.
    destruct (projection_cases MAP_WIDTH (mapItems σ') cleared (entry_index MAP_WIDTH p))
      as [Hsame|(q & Hq & _ & Hval)].
    + rewrite Hsame in Hnf. rewrite Hreg in Hp. rewrite Forall_forall in Hfl.
      destruct Hnf. apply (Hfl p Hp).
    + rewrite Hval. rewrite Hreg in Hq. rewrite Forall_forall in Hsyms. by apply Hsyms.
  - intros j Hj Hsym Hnone. rewrite projection_untouched by done.
    unfold cleared. rewrite clear_item_symbols_spec. by rewrite decide_True.
  - intros j Hnf Hns.
    assert (array_get cleared j = array_get m j) as Hc.
    { unfold cleared. rewrite clear_item_symbols_spec. rewrite decide_False; [done|].
      intros [_ ?]. done. }
    rewrite projection_non_floor; rewrite Hc; done.
Qed.

End HostReset.

(** ** Concrete runs of the further properties *)

Lemma pickupItem_nothing_there_witness :
  pickupItem 4 (constant_draws 0) (Some explorer) (Some four_tile_map) fresh_globals
    = (Normal (false, Some explorer, Some four_tile_map), fresh_globals).
Proof.
  apply (pickupItem_nothing_there 4 (constant_draws 0) explorer four_tile_map
           fresh_globals 0 0);
    [reflexivity | reflexivity | reflexivity | |].
  - intros p Hp. inversion Hp.
  - intros [H|[H|H]]; discriminate H.
Defined.

Lemma pickupItem_takes_first_registry_entry_witness :
  pickupItem 4 (constant_draws 0) (Some explorer) (Some four_tile_map)
      (mkGlobals [short_sword_at_origin] 0)
    = (Normal (true,
               Some (mkPlayer (Some 0) (Some 0) (Some ([] ++ [ShortSword])) no_equipment),
               Some (array_set four_tile_map (entry_index 4 short_sword_at_origin) ".")),
       mkGlobals (delete 0%nat [short_sword_at_origin]) 0).
Proof.
  apply (pickupItem_takes_first_registry_entry 4 (constant_draws 0) explorer
           four_tile_map (mkGlobals [short_sword_at_origin] 0) 0
           short_sword_at_origin []);
    try reflexivity.
  intros j q _ Hj. lia.
Defined.

Lemma pickupItem_frame_witness :
  ∃ pl2 m2,
    Some (mkPlayer (Some 0) (Some 0) (Some [ShortSword]) no_equipment) = Some pl2 ∧
    Some (array_set four_tile_map 0 ".") = Some m2 ∧
    p_x pl2 = p_x explorer ∧ p_y pl2 = p_y explorer ∧
    equipment pl2 = equipment explorer ∧
    (true = false → pl2 = explorer ∧ m2 = four_tile_map ∧
                     mkGlobals [] 0 = mkGlobals [short_sword_at_origin] 0) ∧
    (true = true →
       ∃ x y inv it,
         p_x explorer = Some x ∧ p_y explorer = Some y ∧
         inventory explorer = Some inv ∧ inventory pl2 = Some (inv ++ [it]) ∧
         array_get m2 (y * 4 + x) = Some "." ∧
         (∀ j, j ≠ y * 4 + x → array_get m2 j = array_get four_tile_map j) ∧
         (length (mapItems (mkGlobals [] 0))
            ≤ length (mapItems (mkGlobals [short_sword_at_origin] 0))
            ≤ S (length (mapItems (mkGlobals [] 0))))%nat).
Proof.
  apply (pickupItem_frame 4 (constant_draws 0) explorer four_tile_map
           (mkGlobals [short_sword_at_origin] 0) (mkGlobals [] 0) true
           (Some (mkPlayer (Some 0) (Some 0) (Some [ShortSword]) no_equipment))
           (Some (array_set four_tile_map 0 "."))).
  reflexivity.
Defined.

Lemma pickupItem_synthesizes_by_symbol_witness :
  ∃ s it k,
    array_get drifted_map (3 * 4 + 2) = Some s ∧
    symbol_matches_type s (it_type it) ∧
    it ∈ getItemsByType (Some (it_type it)) ∧
    (k = if decide (s = "$") then 2%nat else 1%nat) ∧
    pickupItem 4 (constant_draws 0) (Some wanderer) (Some drifted_map) fresh_globals
      = (Normal (true,
                 Some (mkPlayer (Some 2) (Some 3) (Some ([] ++ [it])) no_equipment),
                 Some (array_set drifted_map (3 * 4 + 2) ".")),
         after_draws k fresh_globals).
Proof.
  apply (pickupItem_synthesizes_by_symbol 4 (constant_draws 0) zero_draws_unit
           wanderer drifted_map fresh_globals 2 3 []);
    try reflexivity.
  - left. reflexivity.
  - intros p Hp. inversion Hp.
Defined.

Lemma distributeItems_entries_well_formed_witness :
  ∃ l σ',
    distributeItems 4 1 (constant_draws 0) 400 (Some four_tile_map) fresh_globals
      = (Normal l, σ') ∧
    mapItems σ' = l ∧
    Forall (entry_well_formed 4 1) l ∧
    Forall (on_floor 4 four_tile_map) l ∧
    Forall (fun p => is_item_symbol (Some (mi_symbol p))) l.
Proof.
  apply (distributeItems_entries_well_formed 4 1 (constant_draws 0) zero_draws_unit
           ltac:(lia) ltac:(lia) 400 four_tile_map fresh_globals);
    [lia | reflexivity].
Defined.

Lemma all_floor_single_tile : all_floor 1 1 (array_of_list ["."]).
Proof.
  intros x y Hx Hy. assert (x = 0) as -> by lia. assert (y = 0) as -> by lia.
  reflexivity.
Qed.

Lemma distributeItems_all_floor_meets_target_witness :
  ∃ log σ',
    distribute_run 1 1 (constant_draws 0) 400 (array_of_list ["."]) (mkGlobals [] 0)
      = (Normal log, σ') ∧
    distributeItems 1 1 (constant_draws 0) 400 (Some (array_of_list ["."])) fresh_globals
      = (Normal (mapItems σ'), σ') ∧
    log_placedItems log = log_itemCount log ∧
    log_attempts log = log_itemCount log ∧
    Z.of_nat (length (mapItems σ')) = log_itemCount log.
Proof.
  apply (distributeItems_all_floor_meets_target 1 1 (constant_draws 0) zero_draws_unit
           ltac:(lia) ltac:(lia) 400 (array_of_list ["."]) fresh_globals);
    [lia | reflexivity | apply all_floor_single_tile].
Defined.

Lemma resetAndDistributeItems_synchronises_witness :
  ∃ m' σ',
    resetAndDistributeItems 4 1 (constant_draws 0) 400 (Some four_tile_map) true
        (mkGlobals [short_sword_at_origin] 0)
      = (Normal (Some m'), σ') ∧
    Forall (entry_well_formed 4 1) (mapItems σ') ∧
    (∀ j, 0 ≤ j < Z.of_nat (arr_length four_tile_map) →
          is_item_symbol (array_get m' j) →
          ∃ p, p ∈ mapItems σ' ∧ entry_index 4 p = j ∧
               array_get m' j = Some (mi_symbol p)) ∧
    (∀ p, p ∈ mapItems σ' → is_item_symbol (array_get m' (entry_index 4 p))) ∧
    (∀ j, 0 ≤ j < Z.of_nat (arr_length four_tile_map) →
          is_item_symbol (array_get four_tile_map j) →
          (∀ p, p ∈ mapItems σ' → entry_index 4 p ≠ j) →
          array_get m' j = Some ".") ∧
    (∀ j, array_get four_tile_map j ≠ Some "." →
          ¬ is_item_symbol (array_get four_tile_map j) →
          array_get m' j = array_get four_tile_map j).
Proof.
  apply (resetAndDistributeItems_synchronises 4 1 (constant_draws 0) zero_draws_unit
           ltac:(lia) ltac:(lia) 400 four_tile_map true
           (mkGlobals [short_sword_at_origin] 0));
    [lia | reflexivity | by right].
Defined.
